(** * Port bindings of a server's allocations (environment/allocations.go)

    The three methods of [Allocations] -- [Bindings], [DockerBindings] and
    [Exposed] -- are embedded as computations over an explicit Go world: the
    receiver object, the process-wide configuration read through
    [config.Get()], and the order in which the runtime lets [range] walk a
    map.  A computation that ends in a run-time panic has no result.  To say
    what the methods write, they are embedded a second time over a store of
    objects (module [Mem]). *)

From stdpp Require Import gmap strings list fin_maps pretty.

(** ** Data *)

(** [nat.PortBinding] of docker/go-connections. *)
Record PortBinding := mkPortBinding { HostIP : string; HostPort : string }.

Global Instance PortBinding_eq_dec : EqDecision PortBinding.
Proof. solve_decision. Defined.

(** [nat.Port] is a string; [nat.PortMap] is [map[Port][]PortBinding] and
    [nat.PortSet] is [map[Port]struct{}], a set of ports. *)
Abbreviation PortMap := (gmap string (list PortBinding)).
Abbreviation PortSet := (gset string).

Record DefaultMappingT := mkDefaultMapping { Ip : string; Port : Z }.

(** [Mappings] is [None] for Go's nil map (the field absent from the JSON
    document).  A Go [int] is modelled by [Z]: the methods only compare and
    print ports, they do no arithmetic on them. *)
Record Allocations := mkAllocations {
  ForceOutgoingIP : bool;
  DefaultMapping : DefaultMappingT;
  Mappings : option (gmap string (list Z))
}.

(** The two settings of [config.Get().Docker.Network] that the methods read. *)
Record DockerNetwork := mkDockerNetwork { Interface : string; ISPN : bool }.

(** ** The Go world and computations over it *)

(** [sched] and [tick] stand for the runtime's choice of a map iteration
    order: the [k]-th [range] over a map of the run walks its entries in the
    order numbered [sched k]. *)
Record World := mkWorld {
  recv : Allocations;
  conf : DockerNetwork;
  sched : nat → nat;
  tick : nat
}.

Definition GoM (A : Type) : Type := World → option (A * World).

Global Instance GoM_ret : MRet GoM := λ A x w, Some (x, w).
Global Instance GoM_bind : MBind GoM := λ A B f m w,
  match m w with
  | Some (x, w') => f x w'
  | None => None
  end.

(** A run-time panic. *)
Definition panic {A} : GoM A := λ _, None.

(** The value a computation returns in a world, if it returns. *)
Definition result {A} (m : GoM A) (w : World) : option A := fst <$> m w.

(** Reading through the receiver pointer [a]. *)
Definition receiver : GoM Allocations := λ w, Some (recv w, w).

(** [config.Get().Docker.Network] *)
Definition config_Get : GoM DockerNetwork := λ w, Some (conf w, w).

(** The [n]-th order of a list of map entries; every order has a number. *)
Definition pick {A} (n : nat) (l : list A) : list A :=
  default l (permutations l !! n).

(** The world after one more [range] over a map has begun. *)
Definition advance (w : World) : World :=
  {| recv := recv w; conf := conf w; sched := sched w; tick := S (tick w) |}.

(** [for k, v := range m]: the entries of [m] in the order the runtime
    chooses for this loop. *)
Definition range_map {V} (m : gmap string V) : GoM (list (string * V)) := λ w,
  Some (pick (sched w (tick w)) (map_to_list m), advance w).

(** A loop body run once per element, threading the variables it updates. *)
Fixpoint for_each {A S} (body : S → A → GoM S) (l : list A) (s : S) : GoM S :=
  match l with
  | [] => mret s
  | x :: l => s' ← body s x; for_each body l s'
  end.

(** ** Formatting *)

(** [strconv.Itoa] *)
Definition Itoa (i : Z) : string := pretty i.

(** [fmt.Sprintf("%d/tcp", port)] and [fmt.Sprintf("%d/udp", port)] *)
Definition tcpPort (port : Z) : string := Itoa port +:+ "/tcp".
Definition udpPort (port : Z) : string := Itoa port +:+ "/udp".

(** ** Bindings *)

Definition ipv6Binding (port : Z) : PortBinding :=
  {| HostIP := "[::]"; HostPort := Itoa port |}.

(** The body of the inner loop of [Bindings] for one [port].  [out !!! k] is
    [out[k]], the nil slice when [k] is not a key of [out]. *)
Definition Bindings_port (out : PortMap) (port : Z) : PortMap :=
  if decide (port < 1 ∨ port > 65535)%Z then out
  else
    let out1 := <[tcpPort port := out !!! tcpPort port ++ [ipv6Binding port]]> out in
    <[udpPort port := out1 !!! udpPort port ++ [ipv6Binding port]]> out1.

(** Both loops of [Bindings] over the entries of [a.Mappings] in a given
    order. *)
Definition Bindings_in (entries : list (string * list Z)) : PortMap :=
  foldl (λ out e, foldl Bindings_port out e.2) ∅ entries.

(** [a.Mappings] as [range] sees it: a nil map has no entries. *)
Definition Mappings_of (a : Allocations) : gmap string (list Z) :=
  default ∅ (Mappings a).

Definition Bindings : GoM PortMap :=
  a ← receiver;
  entries ← range_map (Mappings_of a);
  mret (Bindings_in entries).

(** ** DockerBindings *)

(** The slice [out[p]] while the inner loop runs over [binds]: both share the
    backing array [arr]; [binds] keeps the length it had when the loop began
    ([length arr]), [out[p]] has length [len].  The loop index stays below
    [length arr], which is at most the capacity, so cells past it are never
    read or written. *)
Record slice := mkSlice { arr : list PortBinding; len : nat }.

Definition elems (s : slice) : list PortBinding := take (len s) (arr s).

(** [out[p] = append(out[p][:i], out[p][i+1:]...)].  [out[p][i+1:]] panics
    unless [i+1 <= len(out[p])]; the result fits the capacity, so [append]
    copies the tail down inside the shared array. *)
Definition delete_at (i : nat) (s : slice) : option slice :=
  if decide (i + 1 ≤ len s) then
    let tail := take (len s - (i + 1)) (drop (i + 1) (arr s)) in
    Some {| arr := take i (arr s) ++ tail ++ drop (i + length tail) (arr s);
            len := i + length tail |}
  else None.

(** [out[p][i] = b], which panics unless [i < len(out[p])]. *)
Definition store_at (i : nat) (b : PortBinding) (s : slice) : option slice :=
  if decide (i < len s) then Some {| arr := <[i:=b]> (arr s); len := len s |}
  else None.

(** A slice operation inside a computation: it panics or leaves the world
    alone. *)
Definition lift {A} (o : option A) : GoM A := λ w, (λ x, (x, w)) <$> o.

(** The body of [for i, alloc := range binds]. *)
Definition rewrite_at (iface : string) (s : slice) (i : nat) : GoM slice :=
  match arr s !! i with
  | None => panic
  | Some alloc =>
      if decide (HostIP alloc ≠ "127.0.0.1") then mret s
      else
        cfg ← config_Get;
        if ISPN cfg then lift (delete_at i s)
        else lift (store_at i {| HostIP := iface; HostPort := HostPort alloc |} s)
  end.

(** The inner loop for one key, and what [out[p]] is when it ends. *)
Definition rewrite_binds (iface : string) (binds : list PortBinding)
    : GoM (list PortBinding) :=
  s ← for_each (rewrite_at iface) (seq 0 (length binds))
        {| arr := binds; len := length binds |};
  mret (elems s).

(** The rewrite stage: [for p, binds := range out { ... }]. *)
Definition rewriteForRuntime (iface : string) (out : PortMap) : GoM PortMap :=
  entries ← range_map out;
  for_each (λ out e, binds' ← rewrite_binds iface e.2; mret (<[e.1 := binds']> out))
    entries out.

Definition DockerBindings : GoM PortMap :=
  cfg ← config_Get;
  out ← Bindings;
  rewriteForRuntime (Interface cfg) out.

(** ** Exposed *)

(** [for port := range t { out[port] = struct{}{} }] *)
Definition exposedPorts (t : PortMap) : GoM PortSet :=
  entries ← range_map t;
  mret (foldl (λ out e, {[e.1]} ∪ out) ∅ entries).

Definition Exposed : GoM PortSet :=
  t ← DockerBindings;
  exposedPorts t.

(** ** Notions used to state what the methods return *)

(** The bindings one occurrence of [port] appends under the key [k]. *)
Definition emitted (k : string) (port : Z) : list PortBinding :=
  if decide (port < 1 ∨ port > 65535)%Z then []
  else (if decide (tcpPort port = k) then [ipv6Binding port] else [])
    ++ (if decide (udpPort port = k) then [ipv6Binding port] else []).

(** [out[k] = append(out[k], l...)], done only when [l] is not empty. *)
Definition grow (o : option (list PortBinding)) (l : list PortBinding)
    : option (list PortBinding) :=
  match l with [] => o | _ => Some (default [] o ++ l) end.

(** How often [p] is listed among the ports [ps]. *)
Definition occurrences (p : Z) (ps : list Z) : nat :=
  length (filter (λ q, q = p) ps).

(** All ports of the mapping entries, in iteration order. *)
Definition ports_of (entries : list (string * list Z)) : list Z :=
  concat entries.*2.

(** The table [Bindings] builds for [a] when the entries are visited in the
    order of [map_to_list]. *)
Definition bindings_of (a : Allocations) : PortMap :=
  Bindings_in (map_to_list (Mappings_of a)).

(** The rewrite rule as the specification words it: a loopback entry gets
    the bridge interface address and keeps its port, any other entry stays
    as it is. *)
Definition replace_loopback (iface : string) (b : PortBinding) : PortBinding :=
  if decide (HostIP b = "127.0.0.1")
  then {| HostIP := iface; HostPort := HostPort b |}
  else b.

(** ** Notions used to state what the isolated-network deletion does *)

(** The entries that are not loopback entries, in their order. *)
Definition retained (binds : list PortBinding) : list PortBinding :=
  filter (λ b, HostIP b ≠ "127.0.0.1") binds.

(** The number of loopback entries. *)
Definition loopbacks (binds : list PortBinding) : nat :=
  length (filter (λ b, HostIP b = "127.0.0.1") binds).

(** Whether some loopback entry is directly followed by another one. *)
Fixpoint adjacent_loopbacks (binds : list PortBinding) : bool :=
  match binds with
  | [] => false
  | x :: rest =>
      match rest with
      | [] => false
      | y :: _ =>
          bool_decide (HostIP x = "127.0.0.1") && bool_decide (HostIP y = "127.0.0.1")
          || adjacent_loopbacks rest
      end
  end.

(** One pass over the entries [rest] still to be visited, written without
    the array: an entry that is not a loopback entry is kept; a loopback
    entry is dropped and the entry behind it is kept without being looked
    at.  [k] entries were dropped before, which leaves [k] more rounds of
    the loop once the entries are used up; they all read [z], the last entry
    of the whole list, and the pass fails when that is a loopback entry. *)
Fixpoint isolated_scan (z : PortBinding) (k : nat) (rest : list PortBinding)
    : option (list PortBinding) :=
  match rest with
  | [] => if decide (k = 0 ∨ HostIP z ≠ "127.0.0.1") then Some [] else None
  | x :: rest' =>
      if decide (HostIP x ≠ "127.0.0.1") then (x ::.) <$> isolated_scan z k rest'
      else
        match rest' with
        | [] => if decide (k = 0) then Some [] else None
        | y :: rest'' => (y ::.) <$> isolated_scan z (S k) rest''
        end
  end.

Definition isolated_pass (binds : list PortBinding) : option (list PortBinding) :=
  isolated_scan (default (mkPortBinding "" "") (last binds)) 0 binds.

(** Whether the last entry is a loopback entry. *)
Definition ends_in_loopback (binds : list PortBinding) : bool :=
  match last binds with
  | Some z => bool_decide (HostIP z = "127.0.0.1")
  | None => false
  end.

(** The pass over every list of a table; it fails when one of them does. *)
Definition isolated_table (out : PortMap) : option PortMap :=
  if decide (map_Forall (λ _ binds, is_Some (isolated_pass binds)) out)
  then Some ((λ binds, default [] (isolated_pass binds)) <$> out)
  else None.

(** ** Test inputs *)

Definition world0 (m : option (gmap string (list Z))) (ispn : bool) : World :=
  {| recv := {| ForceOutgoingIP := false;
                DefaultMapping := {| Ip := "0.0.0.0"; Port := 25565 |};
                Mappings := m |};
     conf := {| Interface := "172.18.0.1"; ISPN := ispn |};
     sched := λ k, k;
     tick := 0 |}.

Definition lo (port : string) : PortBinding :=
  {| HostIP := "127.0.0.1"; HostPort := port |}.
Definition v4 (port : string) : PortBinding :=
  {| HostIP := "0.0.0.0"; HostPort := port |}.

(** The receiver with its mappings table replaced. *)
Definition with_mappings (m : option (gmap string (list Z))) (w : World) : World :=
  {| recv := {| ForceOutgoingIP := ForceOutgoingIP (recv w);
                DefaultMapping := DefaultMapping (recv w);
                Mappings := m |};
     conf := conf w; sched := sched w; tick := tick w |}.

(** ** The methods over Go's memory *)

(** The embedding above hands the receiver to the methods as a value.  To
    say what the methods write, the same code is embedded once more over a
    store of objects: the [Allocations] struct behind the pointer [a], the
    map behind [a.Mappings], the backing arrays of its port slices, and the
    maps, arrays and set the methods make.  A slice is a pointer to its
    array with a length and a capacity, [append] writes into the array when
    the capacity allows and moves to a new array otherwise, and a store can
    hit any object there is. *)
Module Mem.

Abbreviation loc := nat.

(** A slice value; [base] is [None] for the nil slice.  Every slice the
    methods keep begins at the first cell of its array. *)
Record Slice := mkHeader { base : option loc; slen : nat; scap : nat }.

Definition nil_slice : Slice := {| base := None; slen := 0; scap := 0 |}.

Inductive Obj :=
  | AllocationsObj (force : bool) (dflt : DefaultMappingT) (mappings : option loc)
  | IntsMap (m : gmap string Slice)
  | IntArray (cells : list Z)
  | BindsMap (m : gmap string Slice)
  | BindArray (cells : list PortBinding)
  | SetObj (s : gset string).

(** [next] is the first location not yet handed out.  [order] and [ranges]
    choose the iteration order of each [range] over a map, [capacity] the
    capacity the runtime gives an array that [append] has to allocate. *)
Record State := mkState {
  objs : gmap loc Obj;
  next : loc;
  netconf : DockerNetwork;
  order : nat → nat;
  ranges : nat;
  capacity : nat → nat
}.

Definition M (A : Type) : Type := State → option (A * State).

Global Instance M_ret : MRet M := λ A x σ, Some (x, σ).
Global Instance M_bind : MBind M := λ A B f m σ,
  match m σ with
  | Some (x, σ') => f x σ'
  | None => None
  end.

(** A run-time panic, or an access the type checker rules out. *)
Definition fault {A} : M A := λ _, None.

Definition set_objs (h : gmap loc Obj) (σ : State) : State :=
  {| objs := h; next := next σ; netconf := netconf σ; order := order σ;
     ranges := ranges σ; capacity := capacity σ |}.

(** Allocation of a new object. *)
Definition new (o : Obj) : M loc := λ σ,
  Some (next σ,
        {| objs := <[next σ := o]> (objs σ); next := S (next σ);
           netconf := netconf σ; order := order σ; ranges := ranges σ;
           capacity := capacity σ |}).

Definition load (l : loc) : M Obj := λ σ,
  match objs σ !! l with
  | Some o => Some (o, σ)
  | None => None
  end.

Definition store (l : loc) (o : Obj) : M unit := λ σ,
  match objs σ !! l with
  | Some _ => Some ((), set_objs (<[l := o]> (objs σ)) σ)
  | None => None
  end.

(** [config.Get().Docker.Network] *)
Definition config_Get : M DockerNetwork := λ σ, Some (netconf σ, σ).

(** The keys of a map in the order the runtime chooses for this [range]. *)
Definition range_keys {V} (m : gmap string V) : M (list string) := λ σ,
  Some ((pick (order σ (ranges σ)) (map_to_list m)).*1,
        {| objs := objs σ; next := next σ; netconf := netconf σ;
           order := order σ; ranges := S (ranges σ); capacity := capacity σ |}).

Fixpoint for_each {A} (body : A → M unit) (l : list A) : M unit :=
  match l with
  | [] => mret ()
  | x :: l => body x;; for_each body l
  end.

(** *** Reading the receiver *)

(** [a.Mappings], the pointer to the map or nil. *)
Definition Mappings_ptr (a : loc) : M (option loc) :=
  o ← load a;
  match o with
  | AllocationsObj _ _ mp => mret mp
  | _ => fault
  end.

Definition ints_keys (mp : option loc) : M (list string) :=
  match mp with
  | None => mret []
  | Some ml =>
      o ← load ml;
      match o with
      | IntsMap m => range_keys m
      | _ => fault
      end
  end.

(** The value [range] yields for the key [ip] when it gets there. *)
Definition ints_lookup (mp : option loc) (ip : string) : M (option Slice) :=
  match mp with
  | None => mret None
  | Some ml =>
      o ← load ml;
      match o with
      | IntsMap m => mret (m !! ip)
      | _ => fault
      end
  end.

(** [ports[i]] *)
Definition read_int (s : Slice) (i : nat) : M Z :=
  match base s with
  | None => fault
  | Some b =>
      o ← load b;
      match o with
      | IntArray cells =>
          match cells !! i with
          | Some x => mret x
          | None => fault
          end
      | _ => fault
      end
  end.

(** *** Binding tables *)

(** [out[k]], the nil slice when [k] is not a key. *)
Definition map_get (out : loc) (k : string) : M Slice :=
  o ← load out;
  match o with
  | BindsMap m => mret (default nil_slice (m !! k))
  | _ => fault
  end.

(** [out[k] = s] *)
Definition map_put (out : loc) (k : string) (s : Slice) : M unit :=
  o ← load out;
  match o with
  | BindsMap m => store out (BindsMap (<[k := s]> m))
  | _ => fault
  end.

Definition binds_keys (out : loc) : M (list string) :=
  o ← load out;
  match o with
  | BindsMap m => range_keys m
  | _ => fault
  end.

Definition binds_lookup (out : loc) (k : string) : M (option Slice) :=
  o ← load out;
  match o with
  | BindsMap m => mret (m !! k)
  | _ => fault
  end.

(** The cells of a backing array. *)
Definition array_of (s : Slice) : M (list PortBinding) :=
  match base s with
  | None => mret []
  | Some b =>
      o ← load b;
      match o with
      | BindArray cells => mret cells
      | _ => fault
      end
  end.

(** [binds[i]] *)
Definition read_bind (s : Slice) (i : nat) : M PortBinding :=
  cells ← array_of s;
  match cells !! i with
  | Some x => mret x
  | None => fault
  end.

Definition new_capacity (n : nat) : M nat := λ σ,
  Some (n `max` capacity σ n, σ).

(** [append(s, x)]: within the capacity the element is written into the
    array of [s]; otherwise the elements move to a new array. *)
Definition append_bind (s : Slice) (x : PortBinding) : M Slice :=
  cells ← array_of s;
  if decide (slen s < scap s) then
    match base s with
    | None => fault
    | Some b =>
        store b (BindArray (<[slen s := x]> cells));;
        mret {| base := Some b; slen := S (slen s); scap := scap s |}
    end
  else
    c ← new_capacity (S (slen s));
    b ← new (BindArray (take (slen s) cells ++ x
                          :: replicate (c - S (slen s)) (mkPortBinding "" "")));
    mret {| base := Some b; slen := S (slen s); scap := c |}.

(** *** Bindings *)

(** The body of the inner loop for one [port]. *)
Definition Bindings_port (out : loc) (port : Z) : M unit :=
  if decide (port < 1 ∨ port > 65535)%Z then mret ()
  else
    s ← map_get out (tcpPort port);
    s' ← append_bind s (ipv6Binding port);
    map_put out (tcpPort port) s';;
    s ← map_get out (udpPort port);
    s' ← append_bind s (ipv6Binding port);
    map_put out (udpPort port) s'.

Definition Bindings_ports (out : loc) (ports : Slice) : M unit :=
  for_each (λ i, port ← read_int ports i; Bindings_port out port)
    (seq 0 (slen ports)).

Definition Bindings (a : loc) : M loc :=
  out ← new (BindsMap ∅);
  mp ← Mappings_ptr a;
  ips ← ints_keys mp;
  for_each (λ ip,
      ports ← ints_lookup mp ip;
      match ports with
      | Some ports => Bindings_ports out ports
      | None => mret ()
      end) ips;;
  mret out.

(** *** DockerBindings *)

(** [out[p] = append(out[p][:i], out[p][i+1:]...)].  The two slice
    expressions panic unless [i <= cap(out[p])] and [i+1 <= len(out[p])];
    the result fits the capacity, so [append] copies the tail down inside
    the array of [out[p]]. *)
Definition delete_at (out : loc) (p : string) (i : nat) : M unit :=
  s ← map_get out p;
  if decide (i ≤ scap s ∧ i + 1 ≤ slen s) then
    match base s with
    | None => fault
    | Some b =>
        cells ← array_of s;
        store b (BindArray (take i cells
                              ++ take (slen s - (i + 1)) (drop (i + 1) cells)
                              ++ drop (slen s - 1) cells));;
        map_put out p {| base := Some b; slen := slen s - 1; scap := scap s |}
    end
  else fault.

(** [out[p][i] = x], which panics unless [i < len(out[p])]. *)
Definition store_at (out : loc) (p : string) (i : nat) (x : PortBinding)
    : M unit :=
  s ← map_get out p;
  if decide (i < slen s) then
    match base s with
    | None => fault
    | Some b =>
        cells ← array_of s;
        store b (BindArray (<[i := x]> cells))
    end
  else fault.

(** The body of [for i, alloc := range binds] for the key [p]. *)
Definition rewrite_at (iface : string) (out : loc) (p : string)
    (binds : Slice) (i : nat) : M unit :=
  alloc ← read_bind binds i;
  if decide (HostIP alloc ≠ "127.0.0.1") then mret ()
  else
    cfg ← config_Get;
    if ISPN cfg then delete_at out p i
    else store_at out p i {| HostIP := iface; HostPort := HostPort alloc |}.

Definition DockerBindings (a : loc) : M loc :=
  cfg ← config_Get;
  out ← Bindings a;
  ps ← binds_keys out;
  for_each (λ p,
      binds ← binds_lookup out p;
      match binds with
      | Some binds => for_each (rewrite_at (Interface cfg) out p binds)
                        (seq 0 (slen binds))
      | None => mret ()
      end) ps;;
  mret out.

(** *** Exposed *)

(** [out[port] = struct{}{}] *)
Definition set_add (out : loc) (port : string) : M unit :=
  o ← load out;
  match o with
  | SetObj s => store out (SetObj ({[port]} ∪ s))
  | _ => fault
  end.

Definition Exposed (a : loc) : M loc :=
  out ← new (SetObj ∅);
  t ← DockerBindings a;
  ps ← binds_keys t;
  for_each (set_add out) ps;;
  mret out.

(** *** What a location stands for *)

Definition ints_view (σ : State) (s : Slice) : list Z :=
  match base s with
  | None => []
  | Some b =>
      match objs σ !! b with
      | Some (IntArray cells) => take (slen s) cells
      | _ => []
      end
  end.

(** The allocation behind the pointer [a]. *)
Definition alloc_at (σ : State) (a : loc) : option Allocations :=
  match objs σ !! a with
  | Some (AllocationsObj f d None) =>
      Some {| ForceOutgoingIP := f; DefaultMapping := d; Mappings := None |}
  | Some (AllocationsObj f d (Some ml)) =>
      match objs σ !! ml with
      | Some (IntsMap m) =>
          Some {| ForceOutgoingIP := f; DefaultMapping := d;
                  Mappings := Some (ints_view σ <$> m) |}
      | _ => None
      end
  | _ => None
  end.

Definition binds_view (σ : State) (s : Slice) : list PortBinding :=
  match base s with
  | None => []
  | Some b =>
      match objs σ !! b with
      | Some (BindArray cells) => take (slen s) cells
      | _ => []
      end
  end.

(** The binding table behind a pointer. *)
Definition table_at (σ : State) (t : loc) : option PortMap :=
  match objs σ !! t with
  | Some (BindsMap m) => Some (binds_view σ <$> m)
  | _ => None
  end.

(** The port set behind a pointer. *)
Definition set_at (σ : State) (t : loc) : option PortSet :=
  match objs σ !! t with
  | Some (SetObj s) => Some s
  | _ => None
  end.

(** *** Well-formed stores *)

(** Every object lies below [next]. *)
Definition closed (σ : State) : Prop :=
  map_Forall (λ l _, l < next σ) (objs σ).

(** A slice of ports points to an array that holds its elements. *)
Definition ints_wf (σ : State) (s : Slice) : Prop :=
  match base s with
  | None => slen s = 0
  | Some b =>
      match objs σ !! b with
      | Some (IntArray cells) => slen s ≤ length cells
      | _ => False
      end
  end.

Definition valid_receiver (σ : State) (a : loc) : Prop :=
  closed σ ∧
  match objs σ !! a with
  | Some (AllocationsObj _ _ None) => True
  | Some (AllocationsObj _ _ (Some ml)) =>
      match objs σ !! ml with
      | Some (IntsMap m) => map_Forall (λ _ s, ints_wf σ s) m
      | _ => False
      end
  | _ => False
  end.

Global Instance ints_wf_dec σ s : Decision (ints_wf σ s).
Proof.
  unfold ints_wf. destruct (base s) as [b|]; [|apply _].
  destruct (objs σ !! b) as [[]|]; apply _.
Defined.

Global Instance valid_receiver_dec σ a : Decision (valid_receiver σ a).
Proof.
  unfold valid_receiver, closed. apply and_dec; [apply _|].
  destruct (objs σ !! a) as [[? ? [ml|]| | | | |]|]; try apply _.
  destruct (objs σ !! ml) as [[]|]; apply _.
Defined.

(** *** Frames *)

(** Every object there was in [σ] is the same in [σ']. *)
Definition preserves (σ σ' : State) : Prop :=
  next σ ≤ next σ'
  ∧ netconf σ' = netconf σ
  ∧ ∀ l, l < next σ → objs σ' !! l = objs σ !! l.

(** The computation returns, with a value and in a state that meet [Q]. *)
Definition returns {A} (m : M A) (σ : State) (Q : A → State → Prop) : Prop :=
  ∃ x σ', m σ = Some (x, σ') ∧ Q x σ'.

(** The slice [s] of the table under construction holds the list [l] in an
    array made since [n0]. *)
Definition fresh_slice (n0 : loc) (σ : State) (s : Slice)
    (l : list PortBinding) : Prop :=
  ∃ b cells,
    base s = Some b ∧ n0 ≤ b
    ∧ objs σ !! b = Some (BindArray cells)
    ∧ slen s ≤ length cells ∧ scap s = length cells
    ∧ take (slen s) cells = l.

(** The table behind [out] holds [t] and was made since [n0], arrays
    included; no two keys share an array. *)
Definition fresh_table (n0 : loc) (out : loc) (t : PortMap) (σ : State) : Prop :=
  n0 ≤ out
  ∧ ∃ m, objs σ !! out = Some (BindsMap m)
      ∧ (∀ k, option_Forall2 (fresh_slice n0 σ) (m !! k) (t !! k))
      ∧ (∀ k1 k2 s1 s2, m !! k1 = Some s1 → m !! k2 = Some s2 →
           base s1 = base s2 → k1 = k2).

(** What holds while a method that began in [σ0] fills the table [out]. *)
Definition building (σ0 : State) (out : loc) (t : PortMap) (σ : State) : Prop :=
  closed σ ∧ preserves σ0 σ ∧ fresh_table (next σ0) out t σ.

(** *** Test inputs *)

(** An allocation at location 0: its map at 1, the arrays of its two port
    slices at 2 and 3.  The first slice has length 3 in an array of 4. *)
Definition store0 (ispn : bool) : State :=
  {| objs := {[ 0 := AllocationsObj true {| Ip := "10.0.0.5"; Port := 25565 |} (Some 1);
                1 := IntsMap {[ "10.0.0.5" := {| base := Some 2; slen := 3; scap := 4 |};
                                "127.0.0.1" := {| base := Some 3; slen := 1; scap := 1 |} ]};
                2 := IntArray [25565; 0; 25565; 7]%Z;
                3 := IntArray [25565]%Z ]};
     next := 4;
     netconf := {| Interface := "172.18.0.1"; ISPN := ispn |};
     order := λ k, k;
     ranges := 0;
     capacity := λ n, 2 * n |}.

Definition alloc0 : Allocations :=
  {| ForceOutgoingIP := true;
     DefaultMapping := {| Ip := "10.0.0.5"; Port := 25565 |};
     Mappings := Some {[ "10.0.0.5" := [25565; 0; 25565]%Z;
                         "127.0.0.1" := [25565]%Z ]} |}.

(** A table made by hand at location 0 with its one array at 1. *)
Definition store1 (cells : list PortBinding) (ispn : bool) : State :=
  {| objs := {[ 0 := BindsMap {[ "25565/tcp" := {| base := Some 1;
                                                    slen := length cells;
                                                    scap := length cells |} ]};
                1 := BindArray cells ]};
     next := 2;
     netconf := {| Interface := "172.18.0.1"; ISPN := ispn |};
     order := λ k, k;
     ranges := 0;
     capacity := λ n, 2 * n |}.

(** The value a computation returns and what [view] shows of the state it
    returns in. *)
Definition run {A B} (m : M A) (σ : State) (view : State → A → B) : option B :=
  match m σ with
  | Some (x, σ') => Some (view σ' x)
  | None => None
  end.

End Mem.

(** What the outer loop of [Mem.Bindings] has built after the keys [ips] of
    the map [m], begun with the table [t]. *)
Definition table_after (σ0 : Mem.State) (m : gmap string Mem.Slice)
    (t : PortMap) (ips : list string) : PortMap :=
  foldl (λ g ip, match m !! ip with
                 | Some ports => foldl Bindings_port g (Mem.ints_view σ0 ports)
                 | None => g
                 end) t ips.

(** ** Keys: formatting is injective *)

Section keys.
Implicit Types (s t : string) (p q : Z).

Lemma string_length_app s t :
  String.length (s +:+ t) = String.length s + String.length t.
Proof. induction s as [|c s IH]; simpl; [done|]. by rewrite IH. Qed.

Lemma string_app_inj_suffix s1 s2 t1 t2 :
  String.length t1 = String.length t2 →
  s1 +:+ t1 = s2 +:+ t2 → s1 = s2 ∧ t1 = t2.
Proof.
  intros Hlen. revert s2. induction s1 as [|c s1 IH]; intros [|d s2] Heq.
  - done.
  - apply (f_equal String.length) in Heq.
    rewrite !string_length_app in Heq. simpl in Heq. lia.
  - apply (f_equal String.length) in Heq.
    rewrite !string_length_app in Heq. simpl in Heq. lia.
  - unfold String.app in Heq. simpl in Heq. injection Heq as -> Heq.
    destruct (IH _ Heq) as [-> ->]. done.
Qed.

Lemma tcpPort_inj p q : tcpPort p = tcpPort q → p = q.
Proof.
  unfold tcpPort. intros [H _]%string_app_inj_suffix; [|done].
  by apply (inj pretty) in H.
Qed.

Lemma udpPort_inj p q : udpPort p = udpPort q → p = q.
Proof.
  unfold udpPort. intros [H _]%string_app_inj_suffix; [|done].
  by apply (inj pretty) in H.
Qed.

Lemma tcpPort_ne_udpPort p q : tcpPort p ≠ udpPort q.
Proof.
  unfold tcpPort, udpPort. intros [_ H]%string_app_inj_suffix; [|done].
  discriminate H.
Qed.

Lemma Itoa_inj p q : Itoa p = Itoa q → p = q.
Proof. apply (inj pretty). Qed.
End keys.

(** ** What [Bindings] stores under a key *)

Section bindings_facts.
Implicit Types (out : PortMap) (ps : list Z) (p q : Z) (k : string).

Lemma grow_app o l1 l2 : grow (grow o l1) l2 = grow o (l1 ++ l2).
Proof.
  destruct l1 as [|x l1]; [done|].
  destruct l2 as [|y l2]; simpl; [by rewrite app_nil_r|].
  by rewrite <-app_assoc.
Qed.

Lemma Bindings_port_lookup out p k :
  Bindings_port out p !! k = grow (out !! k) (emitted k p).
Proof.
  unfold Bindings_port, emitted. case_decide as Hp; [done|].
  destruct (decide (tcpPort p = k)) as [<-|Ht].
  - rewrite decide_False by (intros ?; by eapply (tcpPort_ne_udpPort p p)).
    rewrite lookup_insert_ne by (intros ?; by eapply (tcpPort_ne_udpPort p p)).
    rewrite lookup_insert_eq. simpl. by rewrite lookup_total_alt.
  - destruct (decide (udpPort p = k)) as [<-|Hu]; simpl.
    + rewrite lookup_insert_eq, lookup_total_insert_ne by done.
      by rewrite lookup_total_alt.
    + by rewrite !lookup_insert_ne.
Qed.

Lemma foldl_Bindings_port_lookup ps out k :
  foldl Bindings_port out ps !! k = grow (out !! k) (ps ≫= emitted k).
Proof.
  revert out. induction ps as [|p ps IH]; intros out; [done|].
  simpl foldl. rewrite IH, Bindings_port_lookup, grow_app.
  by rewrite bind_cons.
Qed.

Lemma foldl_entries_lookup (entries : list (string * list Z)) out k :
  foldl (λ out e, foldl Bindings_port out e.2) out entries !! k
  = grow (out !! k) (ports_of entries ≫= emitted k).
Proof.
  revert out. induction entries as [|e entries IH]; intros out; [done|].
  simpl foldl. rewrite IH, foldl_Bindings_port_lookup, grow_app.
  unfold ports_of. by rewrite fmap_cons, concat_cons, bind_app.
Qed.

Lemma Bindings_in_lookup entries k :
  Bindings_in entries !! k = grow None (ports_of entries ≫= emitted k).
Proof. unfold Bindings_in. by rewrite foldl_entries_lookup, lookup_empty. Qed.

(** Every binding stored under [k] comes from a valid listed port whose
    key is [k]. *)
Lemma elem_of_emitted ps k b :
  b ∈ ps ≫= emitted k →
  ∃ q, q ∈ ps ∧ (1 ≤ q ≤ 65535)%Z ∧ b = ipv6Binding q
       ∧ (tcpPort q = k ∨ udpPort q = k).
Proof.
  intros (q & Hb & Hq)%list_elem_of_bind. exists q. split; [done|].
  unfold emitted in Hb. case_decide; [by apply elem_of_nil in Hb|].
  split; [lia|].
  apply elem_of_app in Hb as [Hb|Hb]; case_decide;
    try (by apply elem_of_nil in Hb);
    apply list_elem_of_singleton in Hb; auto.
Qed.

Lemma emitted_tcp ps p :
  (1 ≤ p ≤ 65535)%Z →
  ps ≫= emitted (tcpPort p) = replicate (occurrences p ps) (ipv6Binding p).
Proof.
  intros Hp. unfold occurrences.
  induction ps as [|q ps IH]; [done|].
  rewrite bind_cons, IH, filter_cons. unfold emitted.
  rewrite (decide_False (P := udpPort q = tcpPort p))
    by (intros ?; by eapply (tcpPort_ne_udpPort p q)).
  destruct (decide (q = p)) as [->|Hne].
  - rewrite decide_False by lia. by rewrite decide_True.
  - case_decide; [done|].
    rewrite decide_False; [done|]. by intros ?%tcpPort_inj.
Qed.

(** A port's two keys always receive the same bindings. *)
Lemma emitted_udp_tcp ps p :
  ps ≫= emitted (udpPort p) = ps ≫= emitted (tcpPort p).
Proof.
  induction ps as [|q ps IH]; [done|].
  rewrite !bind_cons, IH. f_equal. unfold emitted.
  case_decide; [done|].
  rewrite (decide_False (P := udpPort q = tcpPort p))
    by (intros ?; by eapply (tcpPort_ne_udpPort p q)).
  rewrite (decide_False (P := tcpPort q = udpPort p))
    by (intros ?; by eapply (tcpPort_ne_udpPort q p)).
  destruct (decide (q = p)) as [->|Hne].
  - by rewrite !decide_True.
  - rewrite !decide_False; [done|by intros ?%tcpPort_inj|by intros ?%udpPort_inj].
Qed.

Lemma emitted_all_equal ps k x y :
  x ∈ ps ≫= emitted k → y ∈ ps ≫= emitted k → x = y.
Proof.
  intros (q1 & _ & _ & -> & H1)%elem_of_emitted
         (q2 & _ & _ & -> & H2)%elem_of_emitted.
  f_equal. destruct H1 as [<-|<-], H2 as [H2|H2].
  - by apply tcpPort_inj in H2.
  - by destruct (tcpPort_ne_udpPort q1 q2).
  - by destruct (tcpPort_ne_udpPort q2 q1).
  - by apply udpPort_inj in H2.
Qed.

Lemma Permutation_all_equal {A} (l1 l2 : list A) :
  l1 ≡ₚ l2 → (∀ x y, x ∈ l1 → y ∈ l1 → x = y) → l1 = l2.
Proof.
  induction 1 as [|x l1 l2 _ IH|x y l|l1 l2 l3 _ IH1 _ IH2]; intros Heq.
  - done.
  - f_equal. apply IH. intros a b Ha Hb. apply Heq; by right.
  - rewrite (Heq x y); [done|set_solver..].
  - rewrite (IH1 Heq) in Heq |- *. by apply IH2.
Qed.

(** The table does not depend on the order in which the mapping entries
    are visited, nor on the keys they are listed under. *)
Lemma Bindings_in_ports entries1 entries2 :
  ports_of entries1 ≡ₚ ports_of entries2 →
  Bindings_in entries1 = Bindings_in entries2.
Proof.
  intros Hperm. apply map_eq. intros k. rewrite !Bindings_in_lookup.
  f_equal. apply Permutation_all_equal.
  - by rewrite Hperm.
  - apply emitted_all_equal.
Qed.

Lemma Bindings_in_Permutation entries1 entries2 :
  entries1 ≡ₚ entries2 → Bindings_in entries1 = Bindings_in entries2.
Proof.
  intros Hperm. apply Bindings_in_ports. unfold ports_of. by rewrite Hperm.
Qed.
End bindings_facts.

(** ** Running the methods *)

Section runs.
Implicit Types (w : World) (out t : PortMap) (binds : list PortBinding).

Lemma pick_Permutation {A} n (l : list A) : pick n l ≡ₚ l.
Proof.
  unfold pick. destruct (permutations l !! n) as [l'|] eqn:Hl'; [|done].
  symmetry. apply permutations_Permutation. by eapply list_elem_of_lookup_2.
Qed.

(** Every order of the entries is the choice of some schedule. *)
Lemma pick_surj {A} (l l' : list A) : l' ≡ₚ l → ∃ n, pick n l = l'.
Proof.
  intros Hperm. symmetry in Hperm.
  apply permutations_Permutation, list_elem_of_lookup_1 in Hperm as [n Hn].
  exists n. unfold pick. by rewrite Hn.
Qed.

Lemma Bindings_run w :
  Bindings w = Some (bindings_of (recv w), advance w).
Proof.
  unfold Bindings, bindings_of, receiver, range_map, mbind, GoM_bind, mret,
    GoM_ret.
  do 2 f_equal. apply Bindings_in_Permutation, pick_Permutation.
Qed.

(** *** The inner loop of the rewrite stage *)

Lemma rewrite_at_other iface s i b w :
  arr s !! i = Some b → HostIP b ≠ "127.0.0.1" →
  rewrite_at iface s i w = Some (s, w).
Proof. intros Hi Hb. unfold rewrite_at. rewrite Hi. by rewrite decide_True. Qed.

Lemma rewrite_at_replace iface s i b w :
  arr s !! i = Some b → i < len s → ISPN (conf w) = false →
  rewrite_at iface s i w
  = Some ({| arr := <[i := replace_loopback iface b]> (arr s); len := len s |}, w).
Proof.
  intros Hi Hlen Hispn. unfold rewrite_at, replace_loopback. rewrite Hi.
  destruct (decide (HostIP b = "127.0.0.1")) as [Hb|Hb].
  - rewrite decide_False by (by intros ?).
    unfold mbind, GoM_bind, config_Get. rewrite Hispn.
    unfold lift, store_at. by rewrite decide_True.
  - rewrite decide_True by done. rewrite list_insert_id by done.
    by destruct s.
Qed.

Lemma for_each_skip iface (idx : list nat) s w :
  (∀ i, i ∈ idx → ∃ b, arr s !! i = Some b ∧ HostIP b ≠ "127.0.0.1") →
  for_each (rewrite_at iface) idx s w = Some (s, w).
Proof.
  induction idx as [|i idx IH]; intros Hidx; [done|].
  destruct (Hidx i) as (b & Hi & Hb); [by left|].
  simpl. unfold mbind, GoM_bind. rewrite (rewrite_at_other _ _ _ b) by done.
  apply IH. intros j Hj. apply Hidx. by right.
Qed.

Lemma rewrite_binds_no_loopback iface binds w :
  Forall (λ b, HostIP b ≠ "127.0.0.1") binds →
  rewrite_binds iface binds w = Some (binds, w).
Proof.
  intros Hall. unfold rewrite_binds, mbind, GoM_bind.
  rewrite for_each_skip.
  - unfold elems. simpl. by rewrite firstn_all.
  - intros i Hi%elem_of_seq. simpl.
    destruct (lookup_lt_is_Some_2 binds i) as [b Hb]; [lia|].
    exists b. split; [done|].
    rewrite Forall_forall in Hall. apply Hall.
    by eapply list_elem_of_lookup_2.
Qed.

Lemma for_each_replace iface (done todo : list PortBinding) n w :
  ISPN (conf w) = false → length done + length todo = n →
  for_each (rewrite_at iface) (seq (length done) (length todo))
    {| arr := done ++ todo; len := n |} w
  = Some ({| arr := done ++ (replace_loopback iface <$> todo); len := n |}, w).
Proof.
  intros Hispn. revert done. induction todo as [|b todo IH]; intros done Hn.
  { done. }
  simpl in *. unfold mbind, GoM_bind.
  rewrite (rewrite_at_replace _ _ _ b); simpl; [|by apply list_lookup_middle|lia|done].
  rewrite insert_app_r_alt, Nat.sub_diag by done. simpl.
  specialize (IH (done ++ [replace_loopback iface b])).
  rewrite length_app, <-!app_assoc in IH. simpl in IH.
  rewrite Nat.add_1_r in IH. apply IH. lia.
Qed.

Lemma rewrite_binds_replace iface binds w :
  ISPN (conf w) = false →
  rewrite_binds iface binds w = Some (replace_loopback iface <$> binds, w).
Proof.
  intros Hispn. unfold rewrite_binds, mbind, GoM_bind.
  rewrite (for_each_replace iface [] binds (length binds)) by done.
  unfold elems. simpl. rewrite <-(length_fmap (replace_loopback iface)).
  by rewrite firstn_all.
Qed.
(** *** Deleting under the isolated-network mode *)

Lemma for_each_app {A S} (body : S → A → GoM S) (l1 l2 : list A) (s : S) w :
  for_each body (l1 ++ l2) s w
  = match for_each body l1 s w with
    | Some (s', w') => for_each body l2 s' w'
    | None => None
    end.
Proof.
  revert s w. induction l1 as [|x l1 IH]; intros s w; [done|].
  simpl. unfold mbind, GoM_bind. destruct (body s x w) as [[s' w']|]; [|done].
  apply IH.
Qed.

Lemma rewrite_at_delete iface s i b w :
  arr s !! i = Some b → HostIP b = "127.0.0.1" → ISPN (conf w) = true →
  rewrite_at iface s i w = lift (delete_at i s) w.
Proof.
  intros Hi Hb Hispn. unfold rewrite_at. rewrite Hi.
  rewrite decide_False by (by intros ?).
  unfold mbind, GoM_bind, config_Get. by rewrite Hispn.
Qed.

(** A single loopback entry is deleted as intended: the entries behind it
    move down by one and the loop goes on over them and over the stale copy
    of the last one, none of which is a loopback entry. *)
Lemma rewrite_binds_isolated_one iface (l1 l2 : list PortBinding) b w :
  ISPN (conf w) = true → HostIP b = "127.0.0.1" →
  Forall (λ x, HostIP x ≠ "127.0.0.1") l1 →
  Forall (λ x, HostIP x ≠ "127.0.0.1") l2 →
  rewrite_binds iface (l1 ++ b :: l2) w = Some (l1 ++ l2, w).
Proof.
  intros Hispn Hb Hl1 Hl2. unfold rewrite_binds, mbind, GoM_bind.
  rewrite length_app. simpl length.
  rewrite seq_app, for_each_app. simpl seq.
  rewrite for_each_skip; cycle 1.
  { intros i Hi%elem_of_seq. simpl.
    destruct (lookup_lt_is_Some_2 l1 i) as [x Hx]; [lia|].
    exists x. rewrite lookup_app_l by lia. split; [done|].
    rewrite Forall_forall in Hl1. apply Hl1. by eapply list_elem_of_lookup_2. }
  simpl for_each. unfold mbind, GoM_bind.
  rewrite (rewrite_at_delete _ _ _ b); simpl; [|by apply list_lookup_middle|done..].
  unfold lift, delete_at. simpl.
  rewrite decide_True by lia. simpl.
  replace (length l1 + S (length l2) - (length l1 + 1)) with (length l2) by lia.
  rewrite take_app_length.
  rewrite drop_app_add. simpl drop. rewrite firstn_all, !drop_0.
  rewrite (drop_app_add l1 (b :: l2) (length l2)).
  destruct (decide (l2 = [])) as [->|Hne].
  { unfold mret, GoM_ret, elems. simpl.
    by rewrite Nat.add_0_r, take_app_length, app_nil_r. }
  assert (Forall (λ x, HostIP x ≠ "127.0.0.1") (l2 ++ drop (length l2) (b :: l2)))
    as Hrest.
  { destruct l2 as [|y l2' _] using rev_ind; [done|].
    rewrite (app_comm_cons l2' [y] b), length_app. simpl length.
    rewrite Nat.add_1_r, (drop_app_length' (b :: l2')) by done.
    apply Forall_app. split; [done|].
    apply Forall_app in Hl2 as [_ Hy]. done. }
  rewrite for_each_skip; cycle 1.
  { intros i Hi%elem_of_seq. simpl.
    destruct (lookup_lt_is_Some_2 (l2 ++ drop (length l2) (b :: l2)) (i - length l1))
      as [x Hx].
    { rewrite length_app, length_drop. simpl. lia. }
    exists x. rewrite lookup_app_r by lia. split; [done|].
    rewrite Forall_forall in Hrest. apply Hrest.
    by eapply list_elem_of_lookup_2. }
  unfold mret, GoM_ret, elems. simpl. do 2 f_equal.
  rewrite app_assoc, take_app_length'; [done|]. by rewrite length_app.
Qed.

End runs.

Section stages.
Implicit Types (w : World) (out t : PortMap) (binds : list PortBinding).

(** *** The outer loop of the rewrite stage *)

Lemma for_each_store iface (f : list PortBinding → list PortBinding)
    (l : list (string * list PortBinding)) out w :
  (∀ e, e ∈ l → rewrite_binds iface e.2 w = Some (f e.2, w)) →
  for_each (λ out e, binds' ← rewrite_binds iface e.2; mret (<[e.1 := binds']> out))
    l out w
  = Some (foldl (λ out e, <[e.1 := f e.2]> out) out l, w).
Proof.
  revert out. induction l as [|e l IH]; intros out Hl; [done|].
  simpl. unfold mbind, GoM_bind at 1. unfold mbind, GoM_bind at 1.
  rewrite Hl by (by left). unfold mret, GoM_ret at 1.
  apply IH. intros e' He'. apply Hl. by right.
Qed.

Lemma foldl_store_union {V} (f : V → V) (l : list (string * V))
    (m : gmap string V) :
  NoDup l.*1 →
  foldl (λ m e, <[e.1 := f e.2]> m) m l = (f <$> list_to_map l) ∪ m.
Proof.
  revert m. induction l as [|[k v] l IH]; intros m Hnd.
  { simpl. by rewrite fmap_empty, (left_id_L ∅ (∪)). }
  apply NoDup_cons in Hnd as [Hk Hnd]. simpl.
  rewrite IH, fmap_insert, <-insert_union_l by done.
  rewrite insert_union_r; [done|].
  rewrite lookup_fmap. by rewrite (not_elem_of_list_to_map_1 _ _ Hk).
Qed.

Lemma foldl_store_fmap {V} (f : V → V) (l : list (string * V))
    (m : gmap string V) :
  l ≡ₚ map_to_list m →
  foldl (λ m e, <[e.1 := f e.2]> m) m l = f <$> m.
Proof.
  intros Hl. rewrite foldl_store_union.
  - rewrite (list_to_map_proper l (map_to_list m)), list_to_map_to_list.
    + apply map_eq. intros k. rewrite lookup_union, !lookup_fmap.
      by destruct (m !! k).
    + rewrite Hl. apply NoDup_fst_map_to_list.
    + done.
  - rewrite Hl. apply NoDup_fst_map_to_list.
Qed.

Lemma rewriteForRuntime_fmap iface f out w :
  (∀ p binds, out !! p = Some binds →
     rewrite_binds iface binds (advance w) = Some (f binds, advance w)) →
  rewriteForRuntime iface out w = Some (f <$> out, advance w).
Proof.
  intros Hf. unfold rewriteForRuntime, range_map, mbind, GoM_bind at 1.
  pose proof (pick_Permutation (sched w (tick w)) (map_to_list out)) as Hperm.
  rewrite (for_each_store iface f).
  - by rewrite foldl_store_fmap.
  - intros [p binds] He. apply (Hf p). apply elem_of_map_to_list.
    by rewrite <-Hperm.
Qed.

(** *** The exposure loop *)

Lemma foldl_keys {V} (l : list (string * V)) (acc : gset string) :
  foldl (λ ks e, {[e.1]} ∪ ks) acc l = list_to_set l.*1 ∪ acc.
Proof.
  revert acc. induction l as [|e l IH]; intros acc; simpl.
  - by rewrite (left_id_L ∅ (∪)).
  - rewrite IH, (assoc_L (∪)). by rewrite (comm_L (∪) _ {[e.1]}).
Qed.

Lemma exposedPorts_run t w : exposedPorts t w = Some (dom t, advance w).
Proof.
  unfold exposedPorts, range_map, mbind, GoM_bind, mret, GoM_ret.
  do 2 f_equal. rewrite foldl_keys, (right_id_L ∅ (∪)).
  apply set_eq. intros k. rewrite dom_alt, !elem_of_list_to_set.
  by rewrite (pick_Permutation _ (map_to_list t)).
Qed.

(** *** The composed methods *)

Lemma bindings_of_lookup a k :
  bindings_of a !! k
  = grow None (ports_of (map_to_list (Mappings_of a)) ≫= emitted k).
Proof. apply Bindings_in_lookup. Qed.

Lemma grow_None_Some l l' : grow None l = Some l' → l' = l ∧ l ≠ [].
Proof. destruct l; [done|]. simpl. by intros [= <-]. Qed.

Lemma bindings_of_wildcard a k binds b :
  bindings_of a !! k = Some binds → b ∈ binds → HostIP b = "[::]".
Proof.
  rewrite bindings_of_lookup. intros [-> _]%grow_None_Some Hb.
  by apply elem_of_emitted in Hb as (q & _ & _ & -> & _).
Qed.

Lemma DockerBindings_run w :
  DockerBindings w = Some (bindings_of (recv w), advance (advance w)).
Proof.
  unfold DockerBindings, config_Get, mbind, GoM_bind at 1.
  unfold mbind, GoM_bind at 1. rewrite Bindings_run.
  rewrite (rewriteForRuntime_fmap _ id).
  - by rewrite map_fmap_id.
  - intros p binds Hp. apply rewrite_binds_no_loopback, Forall_forall.
    intros b Hb. by rewrite (bindings_of_wildcard _ _ _ _ Hp Hb).
Qed.

Lemma Exposed_run w :
  Exposed w
  = Some (dom (bindings_of (recv w)), advance (advance (advance w))).
Proof.
  unfold Exposed, mbind, GoM_bind. rewrite DockerBindings_run.
  by rewrite exposedPorts_run.
Qed.
End stages.

Section claims.
Implicit Types (w : World) (t : PortMap) (p : Z).

Lemma pick_singleton {A} n (x : A) : pick n [x] = [x].
Proof. by destruct n. Qed.

Lemma elem_of_ports_of (entries : list (string * list Z)) ip ports p :
  (ip, ports) ∈ entries → p ∈ ports → p ∈ ports_of entries.
Proof.
  intros He Hp. unfold ports_of.
  induction entries as [|e entries IH]; [by apply elem_of_nil in He|].
  rewrite fmap_cons, concat_cons. apply elem_of_app.
  apply elem_of_cons in He as [<-|He]; [by left|right; by apply IH].
Qed.

Lemma occurrences_pos p (ps : list Z) : p ∈ ps → 1 ≤ occurrences p ps.
Proof.
  intros Hp. unfold occurrences.
  assert (p ∈ filter (λ q, q = p) ps) as Hin by (by apply list_elem_of_filter).
  destruct (filter _ ps); [by apply elem_of_nil in Hin|simpl; lia].
Qed.

Lemma emitted_invalid (ps : list Z) p :
  (p < 1 ∨ 65535 < p)%Z →
  ps ≫= emitted (tcpPort p) = [] ∧ ps ≫= emitted (udpPort p) = [].
Proof.
  intros Hp. rewrite emitted_udp_tcp.
  destruct (ps ≫= emitted (tcpPort p)) as [|b l] eqn:Hl; [done|].
  assert (b ∈ ps ≫= emitted (tcpPort p)) as Hb by (rewrite Hl; by left).
  apply elem_of_emitted in Hb as (q & _ & Hq & _ & [H|H]).
  - apply tcpPort_inj in H. lia.
  - by destruct (tcpPort_ne_udpPort p q).
Qed.

Lemma bindings_of_HostPort a k binds b p :
  bindings_of a !! k = Some binds → b ∈ binds → HostPort b = Itoa p →
  (1 ≤ p ≤ 65535)%Z ∧ (k = tcpPort p ∨ k = udpPort p).
Proof.
  rewrite bindings_of_lookup. intros [-> _]%grow_None_Some Hb Hport.
  apply elem_of_emitted in Hb as (q & _ & Hq & -> & Hk).
  simpl in Hport. apply Itoa_inj in Hport as ->.
  split; [done|]. destruct Hk as [<-|<-]; auto.
Qed.
End claims.

(** ** The rewrite stage *)




(** The loop taken out of the method and run on tables made by hand, which
    [DockerBindings] never hands to it: of two loopback entries in a row the
    second one stays, and when the last entry is a loopback one and an
    earlier one was deleted the slice expression panics. *)
Lemma rewrite_isolated_hand_made_tables
    (a : Allocations) (iface : string) (sc : nat → nat) (tk : nat) :
  let w := {| recv := a; conf := {| Interface := iface; ISPN := true |};
              sched := sc; tick := tk |} in
  result (rewriteForRuntime iface
            {[ "25565/tcp" := [lo "25565"; lo "25566"; v4 "25565"] ]}) w
  = Some {[ "25565/tcp" := [lo "25566"; v4 "25565"] ]}
  ∧ result (rewriteForRuntime iface
              {[ "25565/tcp" := [lo "25565"; v4 "25565"; lo "25566"] ]}) w
    = None.
Proof.
  intros w. unfold result, rewriteForRuntime, range_map, mbind, GoM_bind at 1 3.
  rewrite !map_to_list_singleton, !pick_singleton. split; by vm_compute.
Qed.

(** C3.  With the isolated-network mode off the rewrite stage gives every
    loopback entry the bridge interface address and keeps its host port; it
    changes no other entry, and no list changes its length or order. *)
Theorem rewrite_bridge_replaces_loopback (w : World) (iface : string) (out : PortMap) :
  ISPN (conf w) = false →
  result (rewriteForRuntime iface out) w
  = Some (fmap (M := list) (replace_loopback iface) <$> out).
Proof.
  intros Hispn. unfold result.
  rewrite (rewriteForRuntime_fmap iface (fmap (replace_loopback iface))); [done|].
  intros p binds _. by apply rewrite_binds_replace.
Qed.

Lemma rewrite_bridge_replaces_loopback_witness :
  ISPN (conf (world0 None false)) = false
  ∧ result (rewriteForRuntime "10.0.0.5"
              {[ "25565/tcp" := [lo "25565"; v4 "25565"; lo "25566"] ]})
      (world0 None false)
    = Some {[ "25565/tcp" :=
                [ {| HostIP := "10.0.0.5"; HostPort := "25565" |}; v4 "25565";
                  {| HostIP := "10.0.0.5"; HostPort := "25566" |} ] ]}.
Proof.
  split; [reflexivity|].
  rewrite (rewrite_bridge_replaces_loopback (world0 None false) "10.0.0.5");
    [|reflexivity].
  by vm_compute.
Defined.

(** ** The binding table *)

(** C2.  A port [p] of [1..65535] listed under any key [ip] of the mappings
    gets the two keys "p/tcp" and "p/udp" and no other; each occurrence of
    [p] in the mappings contributes one binding to each of them, and every
    such binding has host address "[::]" and host port the decimal string
    of [p].  The key [ip] plays no part. *)
Theorem Bindings_valid_port (w : World) (ip : string) (ports : list Z) (p : Z) :
  (1 ≤ p ≤ 65535)%Z →
  Mappings_of (recv w) !! ip = Some ports → p ∈ ports →
  ∃ t n,
    result Bindings w = Some t
    ∧ n = occurrences p (ports_of (map_to_list (Mappings_of (recv w))))
    ∧ 1 ≤ n
    ∧ t !! tcpPort p = Some (replicate n {| HostIP := "[::]"; HostPort := Itoa p |})
    ∧ t !! udpPort p = Some (replicate n {| HostIP := "[::]"; HostPort := Itoa p |})
    ∧ tcpPort p ≠ udpPort p
    ∧ ∀ k binds b, t !! k = Some binds → b ∈ binds → HostPort b = Itoa p →
        k = tcpPort p ∨ k = udpPort p.
Proof.
  intros Hp Hip Hin.
  exists (bindings_of (recv w)),
    (occurrences p (ports_of (map_to_list (Mappings_of (recv w))))).
  unfold result. rewrite Bindings_run.
  split; [done|]. split; [done|].
  assert (1 ≤ occurrences p (ports_of (map_to_list (Mappings_of (recv w)))))
    as Hn.
  { apply occurrences_pos, (elem_of_ports_of _ ip ports); [|done].
    by apply elem_of_map_to_list. }
  split; [done|].
  rewrite !bindings_of_lookup, emitted_udp_tcp, emitted_tcp by done.
  destruct (occurrences _ _) as [|n]; [lia|].
  repeat split; try done.
  - apply tcpPort_ne_udpPort.
  - intros k binds b Hk Hb Hport.
    by destruct (bindings_of_HostPort _ _ _ _ _ Hk Hb Hport).
Qed.

Lemma Bindings_valid_port_witness :
  ∃ t n,
    result Bindings (world0 (Some {[ "10.0.0.1" := [8080; 0; 8080]%Z;
                                      "10.0.0.2" := [8080; 25565]%Z ]}) false)
    = Some t
    ∧ n = 3
    ∧ 1 ≤ n
    ∧ t !! "8080/tcp" = Some (replicate n {| HostIP := "[::]"; HostPort := "8080" |})
    ∧ t !! "8080/udp" = Some (replicate n {| HostIP := "[::]"; HostPort := "8080" |})
    ∧ "8080/tcp" ≠ "8080/udp"
    ∧ ∀ k binds b, t !! k = Some binds → b ∈ binds → HostPort b = "8080" →
        k = "8080/tcp" ∨ k = "8080/udp".
Proof.
  assert (1 ≤ 8080 ≤ 65535)%Z as Hp by lia.
  assert (Mappings_of (recv (world0 (Some {[ "10.0.0.1" := [8080; 0; 8080]%Z;
                                              "10.0.0.2" := [8080; 25565]%Z ]}) false))
            !! "10.0.0.2" = Some [8080; 25565]%Z) as Hip by (by vm_compute).
  assert (8080%Z ∈ [8080; 25565]%Z) as Hin by (by left).
  pose proof (Bindings_valid_port _ _ _ _ Hp Hip Hin) as H.
  vm_compute in H. vm_compute. exact H.
Defined.

(** A port listed once under each of two addresses: its two keys hold two
    bindings each, four in all, so it is not the case that the table has
    exactly one binding under "80/tcp" and one under "80/udp". *)
Lemma Bindings_one_binding_per_key_counterexample :
  (1 ≤ 80 ≤ 65535)%Z
  ∧ Mappings_of (recv (world0 (Some {[ "10.0.0.1" := [80]%Z;
                                        "10.0.0.2" := [80]%Z ]}) false))
      !! "10.0.0.1" = Some [80]%Z
  ∧ (∃ t, result Bindings
            (world0 (Some {[ "10.0.0.1" := [80]%Z; "10.0.0.2" := [80]%Z ]}) false)
          = Some t
          ∧ t !! tcpPort 80 = Some [ipv6Binding 80; ipv6Binding 80]
          ∧ t !! udpPort 80 = Some [ipv6Binding 80; ipv6Binding 80])
  ∧ ¬ (∃ t, result Bindings
              (world0 (Some {[ "10.0.0.1" := [80]%Z; "10.0.0.2" := [80]%Z ]}) false)
            = Some t
            ∧ t !! tcpPort 80 = Some [ipv6Binding 80]
            ∧ t !! udpPort 80 = Some [ipv6Binding 80]).
Proof.
  split; [lia|]. split; [by vm_compute|]. split.
  - eexists. split; [by vm_compute|]. split; by vm_compute.
  - intros (t & Ht & Htcp & _). vm_compute in Ht. injection Ht as <-.
    by vm_compute in Htcp.
Qed.

(** C4.  A port outside [1..65535] is skipped without an error: the methods
    still return, and neither of its keys is in the table [Bindings] builds,
    in the table [DockerBindings] returns or in the set [Exposed] returns,
    and no binding of any key carries its number as host port. *)
Theorem Bindings_invalid_port (w : World) (p : Z) :
  (p < 1 ∨ 65535 < p)%Z →
  ∃ t t' s,
    result Bindings w = Some t
    ∧ result DockerBindings w = Some t'
    ∧ result Exposed w = Some s
    ∧ t !! tcpPort p = None ∧ t !! udpPort p = None
    ∧ t' !! tcpPort p = None ∧ t' !! udpPort p = None
    ∧ (tcpPort p ∉ s) ∧ (udpPort p ∉ s)
    ∧ (∀ k binds b, t !! k = Some binds → b ∈ binds → HostPort b ≠ Itoa p)
    ∧ (∀ k binds b, t' !! k = Some binds → b ∈ binds → HostPort b ≠ Itoa p).
Proof.
  intros Hp.
  exists (bindings_of (recv w)), (bindings_of (recv w)),
    (dom (bindings_of (recv w))).
  unfold result. rewrite Bindings_run, DockerBindings_run, Exposed_run.
  do 3 (split; [done|]).
  assert (bindings_of (recv w) !! tcpPort p = None
          ∧ bindings_of (recv w) !! udpPort p = None) as [Ht Hu].
  { rewrite !bindings_of_lookup.
    by destruct (emitted_invalid
      (ports_of (map_to_list (Mappings_of (recv w)))) p Hp) as [-> ->]. }
  assert (∀ k binds b, bindings_of (recv w) !! k = Some binds → b ∈ binds →
            HostPort b ≠ Itoa p) as Hports.
  { intros k binds b Hk Hb Hport.
    destruct (bindings_of_HostPort _ _ _ _ _ Hk Hb Hport). lia. }
  repeat split; try done; by apply not_elem_of_dom.
Qed.

Lemma Bindings_invalid_port_witness :
  ∃ t t' s,
    let w := world0 (Some {[ "a" := [0; -5; 70000; 8080]%Z ]}) true in
    result Bindings w = Some t
    ∧ result DockerBindings w = Some t'
    ∧ result Exposed w = Some s
    ∧ t !! "70000/tcp" = None ∧ t !! "70000/udp" = None
    ∧ t' !! "70000/tcp" = None ∧ t' !! "70000/udp" = None
    ∧ ("70000/tcp" ∉ s) ∧ ("70000/udp" ∉ s)
    ∧ (∀ k binds b, t !! k = Some binds → b ∈ binds → HostPort b ≠ "70000")
    ∧ (∀ k binds b, t' !! k = Some binds → b ∈ binds → HostPort b ≠ "70000").
Proof.
  assert (70000 < 1 ∨ 65535 < 70000)%Z as Hp by lia.
  pose proof (Bindings_invalid_port
    (world0 (Some {[ "a" := [0; -5; 70000; 8080]%Z ]}) true) 70000%Z Hp) as H.
  vm_compute in H. vm_compute. exact H.
Defined.

(** C10.  For every integer [p] the table holds the same list of bindings
    under "p/tcp" and under "p/udp", or holds neither key: the two keys go
    together and their lists agree entry by entry. *)
Theorem Bindings_tcp_udp_paired (w : World) (p : Z) :
  ∃ t, result Bindings w = Some t ∧ t !! tcpPort p = t !! udpPort p.
Proof.
  exists (bindings_of (recv w)). unfold result. rewrite Bindings_run.
  split; [done|]. by rewrite !bindings_of_lookup, emitted_udp_tcp.
Qed.

(** C8.  [Bindings] run on the same allocation returns the same table,
    whatever the configuration and whatever order the runtime walks the
    mappings in on either run. *)
Theorem Bindings_repeatable (a : Allocations) (cfg1 cfg2 : DockerNetwork)
    (sc1 sc2 : nat → nat) (tk1 tk2 : nat) :
  ∃ t,
    result Bindings {| recv := a; conf := cfg1; sched := sc1; tick := tk1 |} = Some t
    ∧ result Bindings {| recv := a; conf := cfg2; sched := sc2; tick := tk2 |} = Some t.
Proof. eexists. unfold result. by rewrite !Bindings_run. Qed.

(** ** The composed pipeline *)

(** C9.  Under every policy [DockerBindings] returns the very table that
    [Bindings] builds for the allocation, since no binding of that table has
    the loopback address; the set [Exposed] returns is the key set of that
    table and so does not depend on the policy either. *)
Theorem DockerBindings_is_Bindings (a : Allocations) (cfg cfg' : DockerNetwork)
    (sc sc' : nat → nat) (tk tk' : nat) :
  ∃ t,
    result Bindings {| recv := a; conf := cfg; sched := sc; tick := tk |} = Some t
    ∧ result DockerBindings
        {| recv := a; conf := cfg'; sched := sc'; tick := tk' |} = Some t
    ∧ result Exposed
        {| recv := a; conf := cfg'; sched := sc'; tick := tk' |} = Some (dom t).
Proof.
  eexists. unfold result.
  by rewrite Bindings_run, DockerBindings_run, Exposed_run.
Qed.

(** C5.  The exposure loop returns exactly the key set of the table it is
    given, however many bindings a key has, and [Exposed] returns the key
    set of the table [DockerBindings] returns. *)
Theorem Exposed_is_key_set :
  (∀ (t : PortMap) (w : World), result (exposedPorts t) w = Some (dom t))
  ∧ (∀ w : World, ∃ t,
       result DockerBindings w = Some t ∧ result Exposed w = Some (dom t)).
Proof.
  split.
  - intros t w. unfold result. by rewrite exposedPorts_run.
  - intros w. eexists. unfold result.
    by rewrite DockerBindings_run, Exposed_run.
Qed.

(** ** The methods over the store *)

Section mem_logic.
Implicit Types (σ : Mem.State).

Lemma returns_ret {A} (x : A) σ (Q : A → Mem.State → Prop) :
  Q x σ → Mem.returns (mret x) σ Q.
Proof. intros HQ. by exists x, σ. Qed.

Lemma returns_bind {A B} (m : Mem.M A) (f : A → Mem.M B) σ
    (Q : B → Mem.State → Prop) :
  Mem.returns m σ (λ x σ', Mem.returns (f x) σ' Q) →
  Mem.returns (m ≫= f) σ Q.
Proof.
  intros (x & σ' & Hm & y & σ'' & Hf & HQ). exists y, σ''.
  split; [|done]. unfold mbind, Mem.M_bind. by rewrite Hm.
Qed.

Lemma returns_mono {A} (m : Mem.M A) σ (Q Q' : A → Mem.State → Prop) :
  (∀ x σ', Q x σ' → Q' x σ') → Mem.returns m σ Q → Mem.returns m σ Q'.
Proof. intros HQ (x & σ' & Hm & Hx). exists x, σ'. auto. Qed.

Lemma returns_for_each {A G} (I : G → Mem.State → Prop) (step : G → A → G)
    (body : A → Mem.M unit) (l : list A) : ∀ g σ,
  (∀ x g' σ', x ∈ l → I g' σ' →
     Mem.returns (body x) σ' (λ _ σ'', I (step g' x) σ'')) →
  I g σ →
  Mem.returns (Mem.for_each body l) σ (λ _ σ', I (foldl step g l) σ').
Proof.
  induction l as [|x l IH]; intros g σ Hbody HI.
  - by apply returns_ret.
  - simpl. apply returns_bind.
    eapply returns_mono; [|apply (Hbody x g σ); [by left|done]].
    intros u σ' HI'. apply IH; [|done].
    intros y g' σ'' Hy. apply Hbody. by right.
Qed.

Lemma returns_load l o σ (Q : Mem.Obj → Mem.State → Prop) :
  Mem.objs σ !! l = Some o → Q o σ → Mem.returns (Mem.load l) σ Q.
Proof. intros Hl HQ. exists o, σ. unfold Mem.load. by rewrite Hl. Qed.

Lemma returns_store l o o' σ (Q : unit → Mem.State → Prop) :
  Mem.objs σ !! l = Some o' →
  Q () (Mem.set_objs (<[l := o]> (Mem.objs σ)) σ) →
  Mem.returns (Mem.store l o) σ Q.
Proof. intros Hl HQ. eexists _, _. unfold Mem.store. by rewrite Hl. Qed.

Lemma preserves_refl σ : Mem.preserves σ σ.
Proof. by repeat split. Qed.

Lemma preserves_trans σ1 σ2 σ3 :
  Mem.preserves σ1 σ2 → Mem.preserves σ2 σ3 → Mem.preserves σ1 σ3.
Proof.
  intros (Hn1 & Hc1 & Ho1) (Hn2 & Hc2 & Ho2). split; [lia|]. split; [congruence|].
  intros l Hl. rewrite Ho2 by lia. by apply Ho1.
Qed.

Lemma closed_lookup σ l o : Mem.closed σ → Mem.objs σ !! l = Some o → l < Mem.next σ.
Proof. intros Hc Hl. by apply (Hc l o). Qed.

End mem_logic.

Section mem_tables.
Implicit Types (σ : Mem.State) (t : PortMap) (m : gmap string Mem.Slice).

Lemma fresh_slice_objs n0 σ σ' s l :
  Mem.fresh_slice n0 σ s l →
  (∀ b, Mem.base s = Some b → Mem.objs σ' !! b = Mem.objs σ !! b) →
  Mem.fresh_slice n0 σ' s l.
Proof.
  intros (b & cells & Hb & Hn & Hc & Hrest) Hsame. exists b, cells.
  split; [done|]. split; [done|]. split; [|done]. by rewrite Hsame.
Qed.

Lemma building_ext σ0 out t σ σ' :
  Mem.objs σ' = Mem.objs σ → Mem.next σ' = Mem.next σ →
  Mem.netconf σ' = Mem.netconf σ →
  Mem.building σ0 out t σ → Mem.building σ0 out t σ'.
Proof.
  intros Ho Hn Hc (Hcl & (Hp1 & Hp2 & Hp3) & Hn0 & m & Hm & Hrel & Hinj).
  split; [|split].
  - unfold Mem.closed. by rewrite Ho, Hn.
  - split; [lia|]. split; [congruence|]. intros l Hl. rewrite Ho. by apply Hp3.
  - split; [done|]. exists m. rewrite Ho. split; [done|]. split; [|done].
    intros k. specialize (Hrel k).
    destruct Hrel as [s l Hs|]; constructor.
    apply (fresh_slice_objs _ σ); [done|]. intros b _. by rewrite Ho.
Qed.

(** [out[k] = s] for a slice made since the method began that holds [l]. *)
Lemma returns_map_put σ0 out t σ m k s l :
  Mem.building σ0 out t σ →
  Mem.objs σ !! out = Some (Mem.BindsMap m) →
  Mem.fresh_slice (Mem.next σ0) σ s l →
  (∀ k' s', m !! k' = Some s' → Mem.base s' = Mem.base s → k' = k) →
  Mem.returns (Mem.map_put out k s) σ
    (λ _ σ', Mem.building σ0 out (<[k := l]> t) σ').
Proof.
  intros (Hcl & (Hp1 & Hp2 & Hp3) & Hn0 & m' & Hm' & Hrel & Hinj) Hm Hs Hk.
  rewrite Hm in Hm'. injection Hm' as <-.
  unfold Mem.map_put. apply returns_bind, (returns_load _ _ _ _ Hm).
  apply (returns_store _ _ _ _ _ Hm).
  assert (∀ s' l', Mem.fresh_slice (Mem.next σ0) σ s' l' →
            Mem.fresh_slice (Mem.next σ0)
              (Mem.set_objs (<[out := Mem.BindsMap (<[k := s]> m)]> (Mem.objs σ)) σ)
              s' l') as Hkeep.
  { intros s' l' Hs'. apply (fresh_slice_objs _ σ); [done|].
    intros b Hb. simpl. apply lookup_insert_ne. intros <-.
    destruct Hs' as (b' & cells & Hb' & _ & Hc & _). congruence. }
  split; [|split].
  - unfold Mem.closed. simpl. apply map_Forall_insert_2; [|done].
    by apply (closed_lookup _ _ _ Hcl Hm).
  - split; [done|]. split; [done|]. intros l' Hl'. simpl.
    rewrite lookup_insert_ne by lia. by apply Hp3.
  - split; [done|]. exists (<[k := s]> m). simpl. rewrite lookup_insert_eq.
    split; [done|]. split.
    + intros k'. destruct (decide (k' = k)) as [->|Hne].
      * rewrite !lookup_insert_eq. constructor. by apply Hkeep.
      * rewrite !lookup_insert_ne by done. specialize (Hrel k').
        destruct Hrel; constructor. by apply Hkeep.
    + intros k1 k2 s1 s2.
      destruct (decide (k1 = k)) as [->|H1], (decide (k2 = k)) as [->|H2];
        rewrite ?lookup_insert_eq, ?lookup_insert_ne by done.
      * done.
      * intros [= <-] H2' Hb. symmetry. by apply (Hk k2 s2).
      * intros H1' [= <-] Hb. by apply (Hk k1 s1).
      * apply Hinj.
Qed.

(** The state after [append] has moved [n] elements [l] and the new one to
    a new array of capacity [c]. *)
Lemma building_new_array σ0 out t σ m (l : list PortBinding) x c :
  Mem.building σ0 out t σ →
  Mem.objs σ !! out = Some (Mem.BindsMap m) →
  S (length l) ≤ c →
  let σ' := {| Mem.objs := <[Mem.next σ :=
                    Mem.BindArray (l ++ x :: replicate (c - S (length l))
                                                (mkPortBinding "" ""))]> (Mem.objs σ);
               Mem.next := S (Mem.next σ); Mem.netconf := Mem.netconf σ;
               Mem.order := Mem.order σ; Mem.ranges := Mem.ranges σ;
               Mem.capacity := Mem.capacity σ |} in
  let s' := {| Mem.base := Some (Mem.next σ); Mem.slen := S (length l);
               Mem.scap := c |} in
  Mem.building σ0 out t σ'
  ∧ Mem.objs σ' !! out = Some (Mem.BindsMap m)
  ∧ Mem.fresh_slice (Mem.next σ0) σ' s' (l ++ [x])
  ∧ ∀ k' s'', m !! k' = Some s'' → Mem.base s'' ≠ Mem.base s'.
Proof.
  intros (Hcl & (Hp1 & Hp2 & Hp3) & Hn0 & m' & Hm' & Hrel & Hinj) Hm Hc σ' s'.
  rewrite Hm in Hm'. injection Hm' as <-.
  assert (out < Mem.next σ) as Hout by (by apply (closed_lookup _ _ _ Hcl Hm)).
  assert (∀ s l', Mem.fresh_slice (Mem.next σ0) σ s l' →
            Mem.fresh_slice (Mem.next σ0) σ' s l') as Hkeep.
  { intros s l' Hs. apply (fresh_slice_objs _ σ); [done|].
    intros b Hb. simpl. apply lookup_insert_ne. intros <-.
    destruct Hs as (b' & cells & Hb' & _ & Hcells & _).
    assert (b' = Mem.next σ) as -> by congruence.
    apply (closed_lookup _ _ _ Hcl) in Hcells. lia. }
  assert (Mem.objs σ' !! out = Some (Mem.BindsMap m)) as Hm''.
  { simpl. rewrite lookup_insert_ne by lia. done. }
  split; [|split; [done|split]].
  - split; [|split].
    + unfold Mem.closed. simpl. apply map_Forall_insert_2; [lia|].
      intros b o Hb. apply (Hcl b o) in Hb. simpl in Hb. lia.
    + split; [simpl; lia|]. split; [done|]. intros b Hb. simpl.
      rewrite lookup_insert_ne by lia. by apply Hp3.
    + split; [done|]. exists m. split; [done|]. split; [|done].
      intros k. specialize (Hrel k). destruct Hrel; constructor. by apply Hkeep.
  - eexists _, _. split; [done|]. split; [lia|]. simpl.
    rewrite lookup_insert_eq. split; [done|].
    rewrite length_app. simpl. rewrite length_replicate.
    split; [lia|]. split; [lia|].
    rewrite take_app, take_ge by lia.
    replace (S (length l) - length l) with 1 by lia. done.
  - intros k' s'' Hk' Hb. simpl in Hb. specialize (Hrel k').
    rewrite Hk' in Hrel. inversion Hrel as [? l' Hs|]; subst.
    destruct Hs as (b' & cells & Hb' & _ & Hcells & _).
    assert (b' = Mem.next σ) as -> by congruence.
    apply (closed_lookup _ _ _ Hcl) in Hcells. lia.
Qed.

End mem_tables.

Section mem_bindings.
Implicit Types (σ : Mem.State) (t : PortMap) (m : gmap string Mem.Slice).

(** [append(out[k], x)] leaves the table as it is and returns a slice that
    holds the old list of [k] followed by [x], in an array made since the
    method began that no other key uses. *)
Lemma returns_append_bind σ0 out t σ m k x :
  Mem.building σ0 out t σ →
  Mem.objs σ !! out = Some (Mem.BindsMap m) →
  Mem.returns (Mem.append_bind (default Mem.nil_slice (m !! k)) x) σ
    (λ s' σ', Mem.building σ0 out t σ'
              ∧ Mem.objs σ' !! out = Some (Mem.BindsMap m)
              ∧ Mem.fresh_slice (Mem.next σ0) σ' s' (t !!! k ++ [x])
              ∧ ∀ k' s'', m !! k' = Some s'' → Mem.base s'' = Mem.base s' → k' = k).
Proof.
  intros Hb Hm.
  pose proof Hb as (Hcl & (Hp1 & Hp2 & Hp3) & Hn0 & m' & Hm' & Hrel & Hinj).
  rewrite Hm in Hm'. injection Hm' as <-.
  pose proof (Hrel k) as Hk. rewrite lookup_total_alt.
  destruct (m !! k) as [s|] eqn:Hmk, (t !! k) as [l|] eqn:Htk;
    inversion Hk as [? ? Hs|]; subst; simpl.
  - destruct Hs as (b & cells & Hbase & Hbn & Hcells & Hlen & Hcap & Htake).
    subst l. unfold Mem.append_bind. apply returns_bind.
    unfold Mem.array_of. rewrite Hbase.
    apply returns_bind, (returns_load _ _ _ _ Hcells), returns_ret.
    case_decide as Hroom.
    + apply returns_bind, (returns_store _ _ _ _ _ Hcells), returns_ret.
      set (σ' := Mem.set_objs _ σ).
      assert (b ≠ out) as Hbo by (intros ->; congruence).
      assert (∀ s' l', Mem.fresh_slice (Mem.next σ0) σ s' l' →
                (Mem.base s' = Some b → Mem.slen s' = Mem.slen s) →
                Mem.fresh_slice (Mem.next σ0) σ' s' l') as Hkeep.
      { intros s' l' (b' & cells' & Hb' & Hn' & Hc' & Hl' & Hcap' & Ht') Hsame.
        destruct (decide (b' = b)) as [->|Hne].
        - assert (cells' = cells) as -> by congruence.
          exists b, (<[Mem.slen s := x]> cells). split; [done|]. split; [done|].
          simpl. rewrite lookup_insert_eq, length_insert.
          split; [done|]. split; [done|]. split; [done|].
          rewrite (Hsame Hb') in Ht' |- *. by rewrite take_insert_ge.
        - exists b', cells'. simpl. by rewrite lookup_insert_ne. }
      subst σ'. split; [|split; [|split]].
      * split; [|split].
        -- unfold Mem.closed. simpl. apply map_Forall_insert_2; [|done].
           by apply (closed_lookup _ _ _ Hcl Hcells).
        -- split; [done|]. split; [done|]. intros l' Hl'. simpl.
           rewrite lookup_insert_ne by lia. by apply Hp3.
        -- split; [done|]. exists m. simpl. rewrite lookup_insert_ne by done.
           split; [done|]. split; [|done].
           intros k'. pose proof (Hrel k') as Hk'.
           destruct (m !! k') as [s'|] eqn:Hmk'; inversion Hk'; subst;
             constructor.
           apply Hkeep; [done|]. intros Hb'.
           assert (k' = k) as -> by (apply (Hinj _ _ _ _ Hmk' Hmk); congruence).
           congruence.
      * simpl. by rewrite lookup_insert_ne.
      * exists b, (<[Mem.slen s := x]> cells). simpl.
        rewrite lookup_insert_eq, length_insert.
        split; [done|]. split; [done|]. split; [done|]. split; [lia|].
        split; [done|].
        rewrite (take_S_r _ _ x) by (apply list_lookup_insert_eq; lia).
        by rewrite take_insert_ge.
      * intros k' s'' Hk' Hb'. simpl in Hb'.
        apply (Hinj _ _ _ _ Hk' Hmk). congruence.
    + apply returns_bind. eexists _, _. split; [done|].
      apply returns_bind. eexists _, _. split; [done|]. apply returns_ret.
      assert (length (take (Mem.slen s) cells) = Mem.slen s) as Hl.
      { rewrite length_take. lia. }
      pose proof (building_new_array σ0 out t σ m (take (Mem.slen s) cells) x
                    (S (Mem.slen s) `max` Mem.capacity σ (S (Mem.slen s)))
                    Hb Hm) as Hnew.
      rewrite Hl in Hnew. destruct Hnew as (H1 & H2 & H3 & H4); [lia|].
      split; [done|]. split; [done|]. split; [done|].
      intros k' s'' Hk' Hb'. by destruct (H4 _ _ Hk').
  - unfold Mem.append_bind. apply returns_bind, returns_ret.
    rewrite decide_False by (simpl; lia).
    apply returns_bind. eexists _, _. split; [done|].
    apply returns_bind. eexists _, _. split; [done|]. apply returns_ret.
    pose proof (building_new_array σ0 out t σ m [] x
                  (1 `max` Mem.capacity σ 1) Hb Hm) as Hnew.
    destruct Hnew as (H1 & H2 & H3 & H4); [simpl; lia|].
    split; [done|]. split; [done|]. split; [done|].
    intros k' s'' Hk' Hb'. by destruct (H4 _ _ Hk').
Qed.

(** [out[k] = append(out[k], x)] *)
Lemma returns_append σ0 out t σ k x {B} (rest : Mem.M B) Q :
  Mem.building σ0 out t σ →
  (∀ σ', Mem.building σ0 out (<[k := t !!! k ++ [x]]> t) σ' →
     Mem.returns rest σ' Q) →
  Mem.returns (s ← Mem.map_get out k;
               s' ← Mem.append_bind s x;
               Mem.map_put out k s';; rest) σ Q.
Proof.
  intros Hb Hrest.
  pose proof Hb as (_ & _ & _ & m & Hm & _).
  apply returns_bind. unfold Mem.map_get.
  apply returns_bind, (returns_load _ _ _ _ Hm), returns_ret.
  apply returns_bind.
  eapply returns_mono; [|by apply returns_append_bind].
  intros s' σ' (Hb' & Hm' & Hs' & Hk'). simpl.
  apply returns_bind.
  eapply returns_mono; [|by eapply returns_map_put].
  intros u σ'' Hb''. simpl. by apply Hrest.
Qed.

Lemma returns_Bindings_port σ0 out t σ port :
  Mem.building σ0 out t σ →
  Mem.returns (Mem.Bindings_port out port) σ
    (λ _ σ', Mem.building σ0 out (Bindings_port t port) σ').
Proof.
  intros Hb. unfold Mem.Bindings_port, Bindings_port.
  case_decide; [by apply returns_ret|].
  apply (returns_append σ0 out t); [done|]. intros σ' Hb'.
  assert (∀ σ1 t1 k x, Mem.building σ0 out t1 σ1 →
            Mem.returns (s ← Mem.map_get out k;
                         s' ← Mem.append_bind s x;
                         Mem.map_put out k s') σ1
              (λ _ σ2, Mem.building σ0 out (<[k := t1 !!! k ++ [x]]> t1) σ2))
    as Hlast.
  { clear. intros σ1 t1 k x Hb.
    pose proof Hb as (_ & _ & _ & m & Hm & _).
    apply returns_bind. unfold Mem.map_get.
    apply returns_bind, (returns_load _ _ _ _ Hm), returns_ret.
    apply returns_bind.
    eapply returns_mono; [|by apply returns_append_bind].
    intros s' σ' (Hb' & Hm' & Hs' & Hk'). simpl.
    by eapply returns_map_put. }
  by apply Hlast.
Qed.

End mem_bindings.

Section mem_loops.
Implicit Types (σ : Mem.State) (t : PortMap) (m : gmap string Mem.Slice).

Lemma foldl_seq_lookup {A B} (f : B → A → B) (ps : list A) : ∀ pre g,
  foldl (λ g i, match (pre ++ ps) !! i with Some p => f g p | None => g end) g
    (seq (length pre) (length ps))
  = foldl f g ps.
Proof.
  induction ps as [|p ps IH]; intros pre g; [done|].
  simpl. rewrite list_lookup_middle by done.
  specialize (IH (pre ++ [p]) (f g p)).
  rewrite length_app, Nat.add_1_r, <-app_assoc in IH. done.
Qed.

Lemma ints_view_length σ s : Mem.ints_wf σ s → length (Mem.ints_view σ s) = Mem.slen s.
Proof.
  unfold Mem.ints_wf, Mem.ints_view. destruct (Mem.base s) as [b|]; [|done].
  destruct (Mem.objs σ !! b) as [[]|]; try done.
  intros Hlen. by rewrite length_take_le.
Qed.

(** [for _, port := range ports { ... }] *)
Lemma returns_Bindings_ports σ0 out t σ ports :
  Mem.closed σ0 → Mem.ints_wf σ0 ports → Mem.building σ0 out t σ →
  Mem.returns (Mem.Bindings_ports out ports) σ
    (λ _ σ', Mem.building σ0 out
               (foldl Bindings_port t (Mem.ints_view σ0 ports)) σ').
Proof.
  intros Hcl Hwf Hb. unfold Mem.Bindings_ports.
  rewrite <-(foldl_seq_lookup Bindings_port (Mem.ints_view σ0 ports) [] t).
  simpl length. rewrite (ints_view_length _ _ Hwf).
  apply (returns_for_each (λ g σ', Mem.building σ0 out g σ')); [|done].
  intros i g σ' [_ Hi]%elem_of_seq Hg. simpl in Hi |- *.
  unfold Mem.ints_wf, Mem.ints_view in *.
  apply returns_bind. unfold Mem.read_int.
  destruct (Mem.base ports) as [b|]; [|lia].
  destruct (Mem.objs σ0 !! b) as [[| |cells| | |]|] eqn:Hcells; try done.
  destruct (lookup_lt_is_Some_2 cells i) as [p Hp]; [lia|].
  assert (Mem.objs σ' !! b = Some (Mem.IntArray cells)) as Hcells'.
  { destruct Hg as (_ & (_ & _ & Hsame) & _). rewrite Hsame; [done|].
    by apply (closed_lookup _ _ _ Hcl Hcells). }
  apply returns_bind, (returns_load _ _ _ _ Hcells'). rewrite Hp.
  apply returns_ret. rewrite lookup_take_lt, Hp by done.
  by apply returns_Bindings_port.
Qed.

Lemma returns_Bindings_loop σ0 out ml m t σ ips :
  Mem.closed σ0 →
  Mem.objs σ0 !! ml = Some (Mem.IntsMap m) →
  map_Forall (λ _ s, Mem.ints_wf σ0 s) m →
  Mem.building σ0 out t σ →
  Mem.returns
    (Mem.for_each (λ ip,
         ports ← Mem.ints_lookup (Some ml) ip;
         match ports with
         | Some ports => Mem.Bindings_ports out ports
         | None => mret ()
         end) ips) σ
    (λ _ σ', Mem.building σ0 out (table_after σ0 m t ips) σ').
Proof.
  intros Hcl Hml Hwf Hb.
  apply (returns_for_each (λ g σ', Mem.building σ0 out g σ')); [|done].
  intros ip g σ' _ Hg. apply returns_bind. unfold Mem.ints_lookup.
  assert (Mem.objs σ' !! ml = Some (Mem.IntsMap m)) as Hml'.
  { destruct Hg as (_ & (_ & _ & Hsame) & _). rewrite Hsame; [done|].
    by apply (closed_lookup _ _ _ Hcl Hml). }
  apply returns_bind, (returns_load _ _ _ _ Hml'), returns_ret.
  destruct (m !! ip) as [ports|] eqn:Hip; [|by apply returns_ret].
  apply returns_Bindings_ports; [done| |done]. by apply (Hwf ip).
Qed.

Lemma table_after_entries σ0 m (l : list (string * Mem.Slice)) : ∀ t,
  (∀ ip s, (ip, s) ∈ l → m !! ip = Some s) →
  table_after σ0 m t l.*1
  = foldl (λ out e, foldl Bindings_port out e.2) t
      (prod_map id (Mem.ints_view σ0) <$> l).
Proof.
  unfold table_after.
  induction l as [|[ip s] l IH]; intros t Hl; [done|].
  simpl. rewrite (Hl ip s) by left. apply IH.
  intros ip' s' Hin. apply Hl. by right.
Qed.

End mem_loops.

Section mem_methods.
Implicit Types (σ : Mem.State) (t : PortMap) (m : gmap string Mem.Slice)
  (v : Allocations).

Lemma building_table_at σ0 out t σ :
  Mem.building σ0 out t σ → Mem.table_at σ out = Some t.
Proof.
  intros (_ & _ & _ & m & Hm & Hrel & _). unfold Mem.table_at. rewrite Hm.
  f_equal. apply map_eq. intros k. rewrite lookup_fmap.
  destruct (Hrel k) as [s l (b & cells & Hb & _ & Hc & _ & _ & Ht)|]; [|done].
  simpl. unfold Mem.binds_view. by rewrite Hb, Hc, Ht.
Qed.

Lemma building_dom σ0 out t σ m :
  Mem.building σ0 out t σ → Mem.objs σ !! out = Some (Mem.BindsMap m) →
  dom m = dom t.
Proof.
  intros (_ & _ & _ & m' & Hm' & Hrel & _) Hm.
  rewrite Hm in Hm'. injection Hm' as <-.
  apply set_eq. intros k. rewrite !elem_of_dom.
  destruct (Hrel k); split; intros [? ?]; done || by eexists.
Qed.

Lemma ints_wf_preserved σ σ' s :
  Mem.closed σ → Mem.preserves σ σ' → Mem.ints_wf σ s →
  Mem.ints_wf σ' s ∧ Mem.ints_view σ' s = Mem.ints_view σ s.
Proof.
  intros Hcl (_ & _ & Hsame). unfold Mem.ints_wf, Mem.ints_view.
  destruct (Mem.base s) as [b|]; [|done].
  destruct (Mem.objs σ !! b) as [o|] eqn:Hb; [|done].
  rewrite Hsame, Hb by (by apply (closed_lookup _ _ _ Hcl Hb)). done.
Qed.

Lemma receiver_preserved σ σ' a v :
  Mem.valid_receiver σ a → Mem.alloc_at σ a = Some v →
  Mem.preserves σ σ' → Mem.closed σ' →
  Mem.valid_receiver σ' a ∧ Mem.alloc_at σ' a = Some v.
Proof.
  intros [Hcl Hval] Hv Hpres Hcl'. pose proof Hpres as (_ & _ & Hsame).
  unfold Mem.valid_receiver, Mem.alloc_at in *.
  destruct (Mem.objs σ !! a) as [[f d [ml|]| | | | |]|] eqn:Ha; try done.
  - rewrite (Hsame a), Ha by (by apply (closed_lookup _ _ _ Hcl Ha)).
    destruct (Mem.objs σ !! ml) as [[|m| | | |]|] eqn:Hml; try done.
    rewrite (Hsame ml), Hml by (by apply (closed_lookup _ _ _ Hcl Hml)).
    split; [split; [done|]|].
    + intros ip s Hip. by apply (ints_wf_preserved σ), (Hval ip).
    + rewrite <-Hv. do 3 f_equal. apply map_fmap_ext. intros ip s Hip.
      by apply (ints_wf_preserved σ), (Hval ip).
  - rewrite (Hsame a), Ha by (by apply (closed_lookup _ _ _ Hcl Ha)). done.
Qed.

(** The method [Bindings] over the store. *)
Lemma returns_Bindings σ a v :
  Mem.valid_receiver σ a → Mem.alloc_at σ a = Some v →
  Mem.returns (Mem.Bindings a) σ
    (λ out σ', Mem.building σ out (bindings_of v) σ').
Proof.
  intros [Hcl Hval] Hv. unfold Mem.Bindings.
  apply returns_bind. eexists _, _. split; [done|].
  set (σ1 := Mem.mkState _ _ _ _ _ _).
  assert (Mem.building σ (Mem.next σ) ∅ σ1) as Hb1.
  { split; [|split].
    - unfold Mem.closed. simpl. apply map_Forall_insert_2; [lia|].
      intros b o Hb. apply (Hcl b o) in Hb. simpl in Hb. lia.
    - split; [simpl; lia|]. split; [done|]. intros l Hl. simpl.
      by rewrite lookup_insert_ne by lia.
    - split; [done|]. exists ∅. simpl. rewrite lookup_insert_eq.
      split; [done|]. split; [|done]. intros k. rewrite !lookup_empty.
      constructor. }
  assert (∀ l o, Mem.objs σ !! l = Some o → Mem.objs σ1 !! l = Some o) as Hold.
  { intros l o Hl. destruct Hb1 as (_ & (_ & _ & Hsame) & _).
    rewrite Hsame; [done|]. by apply (closed_lookup _ _ _ Hcl Hl). }
  unfold Mem.alloc_at in Hv.
  destruct (Mem.objs σ !! a) as [[f d mp| | | | |]|] eqn:Ha; try done.
  apply returns_bind. unfold Mem.Mappings_ptr.
  apply returns_bind, (returns_load _ _ _ _ (Hold _ _ Ha)), returns_ret.
  destruct mp as [ml|].
  - destruct (Mem.objs σ !! ml) as [[|m| | | |]|] eqn:Hml; try done.
    injection Hv as <-.
    apply returns_bind. unfold Mem.ints_keys.
    apply returns_bind, (returns_load _ _ _ _ (Hold _ _ Hml)).
    eexists _, _. split; [done|].
    apply returns_bind.
    eapply returns_mono;
      [|apply (returns_Bindings_loop σ (Mem.next σ) ml m ∅); try done;
        by apply (building_ext _ _ _ σ1)].
    intros u σ' Hb. apply returns_ret.
    rewrite table_after_entries in Hb.
    + unfold bindings_of, Mappings_of, Bindings_in. simpl.
      erewrite (Bindings_in_Permutation (map_to_list _)); [exact Hb|].
      rewrite map_to_list_fmap. apply fmap_Permutation.
      symmetry. apply pick_Permutation.
    + intros ip s Hin. apply elem_of_map_to_list.
      by rewrite <-(pick_Permutation (Mem.order σ1 (Mem.ranges σ1))).
  - injection Hv as <-. apply returns_bind, returns_ret.
    apply returns_bind, returns_ret, returns_ret.
    unfold bindings_of, Mappings_of. simpl.
    by rewrite map_to_list_empty.
Qed.

(** The inner loop of [DockerBindings] over a list with no loopback entry
    reads and writes nothing. *)
Lemma returns_rewrite_inner iface out p binds σ b cells (idx : list nat) :
  Mem.base binds = Some b →
  Mem.objs σ !! b = Some (Mem.BindArray cells) →
  Mem.slen binds ≤ length cells →
  Forall (λ x, HostIP x ≠ "127.0.0.1") (take (Mem.slen binds) cells) →
  Forall (λ i, i < Mem.slen binds) idx →
  Mem.returns (Mem.for_each (Mem.rewrite_at iface out p binds) idx) σ
    (λ _ σ', σ' = σ).
Proof.
  intros Hb Hcells Hlen Hother Hidx.
  induction Hidx as [|i idx Hi _ IH]; [by apply returns_ret|].
  simpl. apply returns_bind. unfold Mem.rewrite_at at 1.
  apply returns_bind. unfold Mem.read_bind, Mem.array_of. rewrite Hb.
  apply returns_bind, returns_bind, (returns_load _ _ _ _ Hcells), returns_ret.
  destruct (lookup_lt_is_Some_2 cells i) as [x Hx]; [lia|]. rewrite Hx.
  apply returns_ret. rewrite decide_True.
  - by apply returns_ret.
  - rewrite Forall_forall in Hother. apply Hother.
    apply list_elem_of_lookup. exists i. by rewrite lookup_take_lt.
Qed.

(** The method [DockerBindings] over the store. *)
Lemma returns_DockerBindings σ a v :
  Mem.valid_receiver σ a → Mem.alloc_at σ a = Some v →
  Mem.returns (Mem.DockerBindings a) σ
    (λ out σ', Mem.building σ out (bindings_of v) σ').
Proof.
  intros Hval Hv. unfold Mem.DockerBindings.
  apply returns_bind. eexists _, _. split; [done|].
  apply returns_bind.
  eapply returns_mono; [|by apply (returns_Bindings σ a v)].
  intros out σ1 Hb1. simpl.
  pose proof Hb1 as (_ & _ & _ & m & Hm1 & _).
  apply returns_bind. unfold Mem.binds_keys.
  apply returns_bind, (returns_load _ _ _ _ Hm1).
  eexists _, _. split; [done|].
  set (σ2 := Mem.mkState _ _ _ _ _ _).
  assert (Mem.building σ out (bindings_of v) σ2) as Hb2
    by (by apply (building_ext _ _ _ σ1)).
  assert (Mem.objs σ2 !! out = Some (Mem.BindsMap m)) as Hm by done.
  assert (∀ k, option_Forall2 (Mem.fresh_slice (Mem.next σ) σ2)
                 (m !! k) (bindings_of v !! k)) as Hrel.
  { destruct Hb2 as (_ & _ & _ & m2 & Hm2 & Hrel2 & _).
    rewrite Hm in Hm2. by injection Hm2 as <-. }
  apply returns_bind.
  eapply returns_mono;
    [|apply (returns_for_each (λ (_ : unit) σ', σ' = σ2) (λ g _, g) _ _ () σ2);
      [|reflexivity]].
  - intros u σ' ->. by apply returns_ret.
  - intros p [] σ' _ ->. apply returns_bind. unfold Mem.binds_lookup.
    apply returns_bind, (returns_load _ _ _ _ Hm), returns_ret.
    pose proof (Hrel p) as Hp.
    destruct (m !! p) as [binds|] eqn:Hmp; [|by apply returns_ret].
    inversion Hp as [? l Hs Heq1 Heq2|]; subst.
    destruct Hs as (b & cells & Hbase & _ & Hcells & Hlen & _ & Htake).
    apply (returns_rewrite_inner _ _ _ _ _ b cells); try done.
    + rewrite Htake. apply Forall_forall. intros x Hx.
      by rewrite (bindings_of_wildcard v p l x).
    + apply Forall_forall. intros i Hi. apply elem_of_seq in Hi. lia.
Qed.

Lemma foldl_set_add (ps : list string) (acc : gset string) :
  foldl (λ g p, {[p]} ∪ g) acc ps = list_to_set ps ∪ acc.
Proof.
  revert acc. induction ps as [|p ps IH]; intros acc; simpl.
  - by rewrite (left_id_L ∅ (∪)).
  - rewrite IH, (assoc_L (∪)). by rewrite (comm_L (∪) _ {[p]}).
Qed.

(** The method [Exposed] over the store. *)
Lemma returns_Exposed σ a v :
  Mem.valid_receiver σ a → Mem.alloc_at σ a = Some v →
  Mem.returns (Mem.Exposed a) σ
    (λ out σ', Mem.closed σ' ∧ Mem.preserves σ σ' ∧ Mem.next σ ≤ out
               ∧ Mem.set_at σ' out = Some (dom (bindings_of v))).
Proof.
  intros Hval Hv. pose proof Hval as [Hcl _]. unfold Mem.Exposed.
  apply returns_bind. eexists _, _. split; [done|].
  set (σ1 := Mem.mkState _ _ _ _ _ _).
  assert (Mem.closed σ1) as Hcl1.
  { unfold Mem.closed. simpl. apply map_Forall_insert_2; [lia|].
    intros b o Hb. apply (Hcl b o) in Hb. simpl in Hb. lia. }
  assert (Mem.preserves σ σ1) as Hp1.
  { split; [simpl; lia|]. split; [done|]. intros l Hl. simpl.
    by rewrite lookup_insert_ne by lia. }
  destruct (receiver_preserved σ σ1 a v) as [Hval1 Hv1]; try done.
  apply returns_bind.
  eapply returns_mono; [|by apply (returns_DockerBindings σ1 a v)].
  intros t σ2 Hb2. simpl.
  pose proof Hb2 as (Hcl2 & Hp2 & _ & m & Hm & _).
  apply returns_bind. unfold Mem.binds_keys.
  apply returns_bind, (returns_load _ _ _ _ Hm).
  eexists _, _. split; [done|].
  set (σ3 := Mem.mkState _ _ _ _ _ _).
  set (ps := (pick _ (map_to_list m)).*1).
  apply returns_bind.
  eapply returns_mono;
    [|apply (returns_for_each
               (λ g σ', Mem.closed σ' ∧ Mem.preserves σ σ'
                        ∧ Mem.objs σ' !! Mem.next σ = Some (Mem.SetObj g))
               (λ g p, {[p]} ∪ g) _ ps ∅)].
  - intros u σ' (Hcl' & Hp' & Hset). apply returns_ret.
    split; [done|]. split; [done|]. split; [done|].
    unfold Mem.set_at. rewrite Hset. f_equal.
    rewrite foldl_set_add, (right_id_L ∅ (∪)).
    rewrite <-(building_dom _ _ _ _ _ Hb2 Hm).
    apply set_eq. intros k. subst ps. rewrite dom_alt, !elem_of_list_to_set.
    by rewrite (pick_Permutation _ (map_to_list m)).
  - intros p g σ' _ (Hcl' & Hp' & Hset). unfold Mem.set_add.
    apply returns_bind, (returns_load _ _ _ _ Hset).
    apply (returns_store _ _ _ _ _ Hset).
    split; [|split].
    + unfold Mem.closed. simpl. apply map_Forall_insert_2; [|done].
      by apply (closed_lookup _ _ _ Hcl' Hset).
    + destruct Hp' as (Hn & Hc & Hsame). split; [done|]. split; [done|].
      intros l Hl. simpl. rewrite lookup_insert_ne by lia. by apply Hsame.
    + simpl. by rewrite lookup_insert_eq.
  - split; [done|]. split.
    + apply (preserves_trans _ σ1); [done|].
      destruct Hp2 as (Hn & Hc & Hsame). by repeat split.
    + simpl. destruct Hp2 as (_ & _ & Hsame). rewrite Hsame by (simpl; lia).
      simpl. by rewrite lookup_insert_eq.
Qed.

End mem_methods.

(** C6.  The methods over the store.  In every store where the pointer
    [a] leads to a well-formed allocation [v], whatever else the store
    holds, each of the three methods returns, and in the state it returns
    in every object that was there before the call is what it was: the
    [Allocations] struct, the map behind [a.Mappings], the arrays of its
    port slices, and with them the configuration.  [a] still stands for the
    allocation [v].  What the method returns lies at a location that was
    not in use before the call, and it holds what the method returns when
    it is handed the allocation as a value. *)
Theorem methods_leave_receiver (σ : Mem.State) (a : Mem.loc) (v : Allocations) :
  Mem.valid_receiver σ a → Mem.alloc_at σ a = Some v →
  Mem.returns (Mem.Bindings a) σ
    (λ out σ', Mem.preserves σ σ'
               ∧ Mem.valid_receiver σ' a ∧ Mem.alloc_at σ' a = Some v
               ∧ Mem.next σ ≤ out
               ∧ ∀ w, recv w = v → Mem.table_at σ' out = result Bindings w)
  ∧ Mem.returns (Mem.DockerBindings a) σ
      (λ out σ', Mem.preserves σ σ'
                 ∧ Mem.valid_receiver σ' a ∧ Mem.alloc_at σ' a = Some v
                 ∧ Mem.next σ ≤ out
                 ∧ ∀ w, recv w = v →
                     Mem.table_at σ' out = result DockerBindings w)
  ∧ Mem.returns (Mem.Exposed a) σ
      (λ out σ', Mem.preserves σ σ'
                 ∧ Mem.valid_receiver σ' a ∧ Mem.alloc_at σ' a = Some v
                 ∧ Mem.next σ ≤ out
                 ∧ ∀ w, recv w = v → Mem.set_at σ' out = result Exposed w).
Proof.
  intros Hval Hv.
  assert (∀ out σ', Mem.building σ out (bindings_of v) σ' →
            Mem.preserves σ σ'
            ∧ Mem.valid_receiver σ' a ∧ Mem.alloc_at σ' a = Some v
            ∧ Mem.next σ ≤ out
            ∧ Mem.table_at σ' out = Some (bindings_of v)) as Hpost.
  { intros out σ' Hb. pose proof Hb as (Hcl & Hp & Hout & _).
    destruct (receiver_preserved σ σ' a v) as [? ?]; try done.
    by rewrite (building_table_at _ _ _ _ Hb). }
  split; [|split].
  - eapply returns_mono; [|by apply (returns_Bindings σ a v)].
    intros out σ' (? & ? & ? & ? & Ht)%Hpost. repeat (split; [done|]).
    intros w <-. unfold result. by rewrite Bindings_run.
  - eapply returns_mono; [|by apply (returns_DockerBindings σ a v)].
    intros out σ' (? & ? & ? & ? & Ht)%Hpost. repeat (split; [done|]).
    intros w <-. unfold result. by rewrite DockerBindings_run.
  - eapply returns_mono; [|by apply (returns_Exposed σ a v)].
    intros out σ' (Hcl & Hp & ? & Hs).
    destruct (receiver_preserved σ σ' a v) as [? ?]; try done.
    repeat (split; [done|]).
    intros w <-. unfold result. by rewrite Exposed_run.
Qed.

Lemma methods_leave_receiver_witness :
  Mem.returns (Mem.Bindings 0) (Mem.store0 true)
    (λ out σ', Mem.preserves (Mem.store0 true) σ'
               ∧ Mem.valid_receiver σ' 0 ∧ Mem.alloc_at σ' 0 = Some Mem.alloc0
               ∧ Mem.next (Mem.store0 true) ≤ out
               ∧ ∀ w, recv w = Mem.alloc0 →
                   Mem.table_at σ' out = result Bindings w)
  ∧ Mem.returns (Mem.DockerBindings 0) (Mem.store0 true)
      (λ out σ', Mem.preserves (Mem.store0 true) σ'
                 ∧ Mem.valid_receiver σ' 0 ∧ Mem.alloc_at σ' 0 = Some Mem.alloc0
                 ∧ Mem.next (Mem.store0 true) ≤ out
                 ∧ ∀ w, recv w = Mem.alloc0 →
                     Mem.table_at σ' out = result DockerBindings w)
  ∧ Mem.returns (Mem.Exposed 0) (Mem.store0 true)
      (λ out σ', Mem.preserves (Mem.store0 true) σ'
                 ∧ Mem.valid_receiver σ' 0 ∧ Mem.alloc_at σ' 0 = Some Mem.alloc0
                 ∧ Mem.next (Mem.store0 true) ≤ out
                 ∧ ∀ w, recv w = Mem.alloc0 →
                     Mem.set_at σ' out = result Exposed w).
Proof.
  apply (methods_leave_receiver (Mem.store0 true) 0 Mem.alloc0).
  - apply (bool_decide_unpack _). by vm_compute.
  - by vm_compute.
Defined.

(** C7.  The three methods return a value in every world (no panic), and
    for a nil or an empty mappings table the two tables and the exposure set
    are empty. *)
Theorem methods_total (w : World) :
  (∃ t t' s, result Bindings w = Some t ∧ result DockerBindings w = Some t'
             ∧ result Exposed w = Some s)
  ∧ (result Bindings (with_mappings None w) = Some ∅
     ∧ result DockerBindings (with_mappings None w) = Some ∅
     ∧ result Exposed (with_mappings None w) = Some ∅)
  ∧ (result Bindings (with_mappings (Some ∅) w) = Some ∅
     ∧ result DockerBindings (with_mappings (Some ∅) w) = Some ∅
     ∧ result Exposed (with_mappings (Some ∅) w) = Some ∅).
Proof.
  unfold result. rewrite !Bindings_run, !DockerBindings_run, !Exposed_run.
  split; [by eexists _, _, _|].
  assert (bindings_of (recv (with_mappings None w)) = ∅) as -> by done.
  assert (bindings_of (recv (with_mappings (Some ∅) w)) = ∅) as ->.
  { unfold bindings_of, Mappings_of. simpl. by rewrite map_to_list_empty. }
  by rewrite dom_empty_L.
Qed.

(** ** Worked examples *)

Example Itoa_examples :
  Itoa 8080 = "8080" ∧ Itoa 0 = "0" ∧ Itoa (-5) = "-5"
  ∧ tcpPort 25565 = "25565/tcp" ∧ udpPort 25565 = "25565/udp".
Proof. by vm_compute. Qed.

(** One mapping, isolation off: both keys are exposed and bound to "[::]". *)
Example pipeline_single_port :
  let w := world0 (Some {[ "0.0.0.0" := [25565]%Z ]}) false in
  result DockerBindings w
  = Some {[ "25565/tcp" := [ {| HostIP := "[::]"; HostPort := "25565" |} ];
            "25565/udp" := [ {| HostIP := "[::]"; HostPort := "25565" |} ] ]}
  ∧ result Exposed w = Some {[ "25565/tcp"; "25565/udp" ]}.
Proof. by vm_compute. Qed.

(** Of the ports 0, -5, 70000 and 8080 only 8080 reaches the table. *)
Example pipeline_invalid_ports :
  result Bindings (world0 (Some {[ "a" := [0; -5; 70000; 8080]%Z ]}) true)
  = Some {[ "8080/tcp" := [ {| HostIP := "[::]"; HostPort := "8080" |} ];
            "8080/udp" := [ {| HostIP := "[::]"; HostPort := "8080" |} ] ]}.
Proof. by vm_compute. Qed.

(** The exposure set ignores how many bindings a key holds. *)
Example exposedPorts_two_keys :
  result (exposedPorts {[ "25565/tcp" := [v4 "25565"; lo "25565"; v4 "25566"];
                          "25565/udp" := [] ]}) (world0 None false)
  = Some {[ "25565/tcp"; "25565/udp" ]}.
Proof. by vm_compute. Qed.

(** A port listed twice, under two keys, has two bindings per protocol. *)
Example Bindings_repeated_port :
  result Bindings (world0 (Some {[ "10.0.0.1" := [80]%Z; "10.0.0.2" := [80]%Z ]}) false)
  = Some {[ "80/tcp" := [ {| HostIP := "[::]"; HostPort := "80" |};
                          {| HostIP := "[::]"; HostPort := "80" |} ];
            "80/udp" := [ {| HostIP := "[::]"; HostPort := "80" |};
                          {| HostIP := "[::]"; HostPort := "80" |} ] ]}.
Proof. by vm_compute. Qed.

(** With one loopback entry the isolated-network mode deletes it. *)
Example rewrite_isolated_single :
  result (rewrite_binds "172.18.0.1" [v4 "25565"; lo "25565"; v4 "25566"])
    (world0 None true)
  = Some [v4 "25565"; v4 "25566"].
Proof. by vm_compute. Qed.

(** [Bindings] over the store: the table is made at location 4, holds three
    bindings per key, and the allocation and the array of its first port
    slice are what they were. *)
Example Bindings_over_store :
  Mem.run (Mem.Bindings 0) (Mem.store0 false)
    (λ σ' out, (out, Mem.table_at σ' out, Mem.alloc_at σ' 0, Mem.objs σ' !! 2))
  = Some (4,
          Some {[ "25565/tcp" := [ipv6Binding 25565; ipv6Binding 25565;
                                  ipv6Binding 25565];
                  "25565/udp" := [ipv6Binding 25565; ipv6Binding 25565;
                                  ipv6Binding 25565] ]},
          Some Mem.alloc0,
          Some (Mem.IntArray [25565; 0; 25565; 7]%Z)).
Proof. by vm_compute. Qed.

(** The loop body of [DockerBindings] over the store, run on tables made by
    hand: it deletes and replaces as the loop over slices above does. *)
Example rewrite_over_store :
  let loop := Mem.for_each
                (Mem.rewrite_at "172.18.0.1" 0 "25565/tcp"
                   {| Mem.base := Some 1; Mem.slen := 3; Mem.scap := 3 |})
                (seq 0 3) in
  Mem.run loop (Mem.store1 [lo "25565"; lo "25566"; v4 "25565"] true)
    (λ σ' _, Mem.table_at σ' 0)
  = option_map Some
      (result (rewriteForRuntime "172.18.0.1"
                 {[ "25565/tcp" := [lo "25565"; lo "25566"; v4 "25565"] ]})
         (world0 None true))
  ∧ Mem.run loop (Mem.store1 [lo "25565"; v4 "25565"; lo "25566"] true)
      (λ σ' _, Mem.table_at σ' 0)
    = None
  ∧ Mem.run loop (Mem.store1 [lo "25565"; v4 "25565"; lo "25566"] false)
      (λ σ' _, Mem.table_at σ' 0)
    = Some (Some {[ "25565/tcp" := [ {| HostIP := "172.18.0.1"; HostPort := "25565" |};
                                     v4 "25565";
                                     {| HostIP := "172.18.0.1"; HostPort := "25566" |} ] ]}).
Proof. by vm_compute. Qed.

(** ** The isolated-network pass, entry by entry *)

Section isolated.
Implicit Types (z x y b : PortBinding) (rest res binds : list PortBinding)
  (k : nat) (w : World).

Example isolated_pass_examples :
  isolated_pass [lo "1"; lo "2"; v4 "3"] = Some [lo "2"; v4 "3"]
  ∧ isolated_pass [lo "1"; v4 "2"; lo "3"] = None
  ∧ isolated_pass [lo "1"; v4 "2"; lo "3"; v4 "4"] = Some [v4 "2"; v4 "4"]
  ∧ isolated_pass [v4 "1"; lo "2"] = Some [v4 "1"]
  ∧ isolated_pass [lo "1"; lo "2"] = None.
Proof. by vm_compute. Qed.
Lemma drop_to_last x rest (tl : list PortBinding) z :
  last (x :: rest) = Some z → drop (length rest) (x :: rest ++ tl) = z :: tl.
Proof.
  revert x. induction rest as [|y rest IH]; intros x Hz.
  - simpl in *. by injection Hz as ->.
  - simpl length. rewrite <-app_comm_cons. change (drop (S (length rest)) (x :: y :: rest ++ tl))
      with (drop (length rest) (y :: rest ++ tl)).
    apply IH. by rewrite last_cons_cons in Hz.
Qed.

Lemma delete_at_middle res x rest k z :
  last (x :: rest) = Some z →
  delete_at (length res)
    {| arr := res ++ x :: rest ++ replicate k z;
       len := length res + S (length rest) |}
  = Some {| arr := res ++ rest ++ replicate (S k) z;
            len := length res + length rest |}.
Proof.
  intros Hz. unfold delete_at. simpl arr. simpl len.
  rewrite decide_True by lia.
  replace (length res + S (length rest) - (length res + 1)) with (length rest) by lia.
  rewrite drop_app_add. simpl drop. rewrite drop_0, take_app_length.
  rewrite take_app_length, drop_app_add, (drop_to_last _ _ _ z) by done.
  done.
Qed.

(** The rounds left once the live entries are used up: each reads [z]. *)
Lemma for_each_stale iface res z m i c w :
  ISPN (conf w) = true → length res ≤ i → i + c ≤ length res + m →
  for_each (rewrite_at iface) (seq i c)
    {| arr := res ++ replicate m z; len := length res |} w
  = if decide (c = 0 ∨ HostIP z ≠ "127.0.0.1")
    then Some ({| arr := res ++ replicate m z; len := length res |}, w)
    else None.
Proof.
  intros Hispn Hi Hc.
  assert (∀ j, j ∈ seq i c → (res ++ replicate m z) !! j = Some z) as Hread.
  { intros j Hj%elem_of_seq. rewrite lookup_app_r by lia.
    apply lookup_replicate_2. lia. }
  case_decide as Hcase.
  - destruct (decide (HostIP z = "127.0.0.1")) as [Hz|Hz].
    + destruct Hcase as [->|?]; done.
    + apply for_each_skip. intros j Hj. exists z. split; [by apply Hread|done].
  - destruct c as [|c]; [by destruct Hcase; left|].
    destruct (decide (HostIP z = "127.0.0.1")) as [Hz|Hz]; [|by destruct Hcase; right].
    simpl. unfold mbind, GoM_bind.
    rewrite (rewrite_at_delete _ _ _ z); [|apply Hread; by left|done..].
    unfold lift, delete_at. simpl. by rewrite decide_False by lia.
Qed.

(** The loop over a list under the isolated-network mode does what
    [isolated_scan] says, panic included. *)
Lemma for_each_isolated iface n : ∀ rest res k z w,
  length rest ≤ n → ISPN (conf w) = true →
  (rest ≠ [] → last rest = Some z) →
  match for_each (rewrite_at iface) (seq (length res) (length rest + k))
          {| arr := res ++ rest ++ replicate k z;
             len := length res + length rest |} w with
  | Some (s, w') => Some (elems s, w')
  | None => None
  end
  = (λ r, (res ++ r, w)) <$> isolated_scan z k rest.
Proof.
  induction n as [|n IH]; intros rest res k z w Hn Hispn Hz.
  { destruct rest; [|simpl in Hn; lia]. simpl. rewrite Nat.add_0_r.
    rewrite for_each_stale by (done || lia).
    case_decide; [|done]. unfold elems. simpl.
    by rewrite take_app_length, app_nil_r. }
  destruct rest as [|x rest].
  { simpl. rewrite Nat.add_0_r. rewrite for_each_stale by (done || lia).
    case_decide; [|done]. unfold elems. simpl.
    by rewrite take_app_length, app_nil_r. }
  specialize (Hz ltac:(done)). simpl length. simpl seq. simpl for_each.
  unfold mbind, GoM_bind at 1.
  simpl isolated_scan. destruct (decide (HostIP x ≠ "127.0.0.1")) as [Hx|Hx].
  - rewrite (rewrite_at_other _ _ _ x); [|by apply list_lookup_middle|done].
    specialize (IH rest (res ++ [x]) k z w).
    rewrite length_app, <-!app_assoc in IH. simpl in IH.
    rewrite Nat.add_1_r in IH.
    replace (length res + S (length rest)) with (S (length res) + length rest) by lia.
    rewrite IH; [| simpl in Hn; lia | done |].
    + destruct (isolated_scan z k rest); simpl; [|done].
      by rewrite <-app_assoc.
    + intros Hne. destruct rest; [done|]. by rewrite last_cons_cons in Hz.
  - apply dec_stable in Hx.
    rewrite (rewrite_at_delete _ _ _ x); [|by apply list_lookup_middle|done..].
    unfold lift. rewrite (delete_at_middle _ _ _ _ z) by done. simpl.
    destruct rest as [|y rest].
    + simpl in *. injection Hz as <-.
      rewrite Nat.add_0_r.
      change (x :: replicate k x) with (replicate (S k) x).
      rewrite for_each_stale by (done || lia).
      destruct (decide (k = 0)) as [->|Hk].
      * rewrite decide_True by (by left). unfold elems. simpl.
        by rewrite take_app_length, app_nil_r.
      * rewrite decide_False; [done|]. intros [?|?]; done.
    + specialize (IH rest (res ++ [y]) (S k) z w).
      rewrite length_app, <-!app_assoc in IH. simpl in IH.
      rewrite Nat.add_1_r in IH.
      simpl length. rewrite <-app_comm_cons.
      replace (length res + S (length rest)) with (S (length res) + length rest) by lia.
      replace (S (length rest) + k) with (length rest + S k) by lia.
      rewrite IH; [| simpl in Hn; lia | done |].
      * destruct (isolated_scan z (S k) rest); simpl; [|done].
        by rewrite <-app_assoc.
      * intros Hne. destruct rest; [done|].
        by rewrite !last_cons_cons in Hz.
Qed.

Lemma rewrite_binds_isolated iface binds w :
  ISPN (conf w) = true →
  rewrite_binds iface binds w = lift (isolated_pass binds) w.
Proof.
  intros Hispn. unfold rewrite_binds, mbind, GoM_bind, isolated_pass, lift.
  set (z := default (mkPortBinding "" "") (last binds)).
  pose proof (for_each_isolated iface (length binds) binds [] 0 z w) as H.
  simpl in H. rewrite Nat.add_0_r, app_nil_r in H.
  rewrite <-H; [done..|].
  intros Hne. unfold z. by destruct (last binds) eqn:Hl;
    [|apply last_None in Hl].
Qed.
(** *** What the pass keeps, and when it fails *)

Lemma list_ind2 {A} (P : list A → Prop) :
  P [] → (∀ u, P [u]) → (∀ u v l, P l → P (v :: l) → P (u :: v :: l)) →
  ∀ l, P l.
Proof.
  intros Hnil Hone Hstep l.
  assert (P l ∧ ∀ u, P (u :: l)) as [? _]; [|done].
  induction l as [|v l [IH1 IH2]]; [by split|].
  split; [apply IH2|]. intros u. by apply Hstep.
Qed.

Lemma loopbacks_cons x rest :
  loopbacks (x :: rest)
  = (if decide (HostIP x = "127.0.0.1") then 1 else 0) + loopbacks rest.
Proof. unfold loopbacks. rewrite filter_cons. by case_decide. Qed.

Lemma retained_cons x rest :
  retained (x :: rest)
  = if decide (HostIP x ≠ "127.0.0.1") then x :: retained rest else retained rest.
Proof. unfold retained. by rewrite filter_cons. Qed.

Lemma loopbacks_last rest z :
  last rest = Some z → HostIP z = "127.0.0.1" → 1 ≤ loopbacks rest.
Proof.
  intros Hlast Hz. induction rest as [|x rest IH]; [done|].
  rewrite loopbacks_cons. destruct rest as [|y rest].
  - simpl in Hlast. injection Hlast as ->. rewrite decide_True by done. lia.
  - rewrite last_cons_cons in Hlast. specialize (IH Hlast). lia.
Qed.

Lemma isolated_scan_None rest : ∀ z k,
  (rest ≠ [] → last rest = Some z) →
  isolated_scan z k rest = None
  ↔ HostIP z = "127.0.0.1" ∧ (1 ≤ k ∨ 2 ≤ loopbacks rest).
Proof.
  induction rest as [|x|x y rest IH1 IH2] using list_ind2; intros z k Hz.
  - simpl. case_decide as H; split; try done.
    + intros [Hlo [?|?]]; [|unfold loopbacks in *; simpl in *; lia].
      destruct H as [->|?]; [lia|done].
    + intros _. split; [apply dec_stable; tauto|left; lia].
  - specialize (Hz ltac:(done)). simpl in Hz. injection Hz as <-.
    simpl. rewrite loopbacks_cons.
    destruct (decide (HostIP x ≠ "127.0.0.1")) as [Hx|Hx].
    + rewrite decide_True by (by right). simpl. split; [done|]. by intros [? _].
    + apply dec_stable in Hx.
      rewrite (decide_True (P := HostIP x = "127.0.0.1")) by done.
      unfold loopbacks. simpl. case_decide; split.
      * done.
      * intros [_ [?|?]]; lia.
      * intros _. split; [done|left; lia].
      * done.
  - specialize (Hz ltac:(done)). rewrite last_cons_cons in Hz.
    rewrite loopbacks_cons.
    change (isolated_scan z k (x :: y :: rest)) with
      (if decide (HostIP x ≠ "127.0.0.1")
       then (x ::.) <$> isolated_scan z k (y :: rest)
       else (y ::.) <$> isolated_scan z (S k) rest).
    destruct (decide (HostIP x ≠ "127.0.0.1")) as [Hx|Hx].
    + rewrite (decide_False (P := HostIP x = "127.0.0.1")) by done.
      rewrite fmap_None. by apply IH2.
    + apply dec_stable in Hx.
      rewrite (decide_True (P := HostIP x = "127.0.0.1")) by done.
      rewrite fmap_None, IH1.
      * split; [|intros [? _]; split; [done|left; lia]].
        intros [Hlo _]. split; [done|]. right.
        pose proof (loopbacks_last _ _ Hz Hlo). lia.
      * intros Hne. destruct rest; [done|]. by rewrite last_cons_cons in Hz.
Qed.

Lemma isolated_scan_retained rest : ∀ z k r,
  isolated_scan z k rest = Some r → retained r = retained rest.
Proof.
  induction rest as [|x|x y rest IH1 IH2] using list_ind2; intros z k r.
  - simpl. case_decide; [|done]. by intros [= <-].
  - simpl. rewrite retained_cons.
    destruct (decide (HostIP x ≠ "127.0.0.1")) as [Hx|Hx].
    + case_decide; [|done]. simpl. intros [= <-].
      by rewrite retained_cons, decide_True.
    + case_decide; [|done]. by intros [= <-].
  - change (isolated_scan z k (x :: y :: rest)) with
      (if decide (HostIP x ≠ "127.0.0.1")
       then (x ::.) <$> isolated_scan z k (y :: rest)
       else (y ::.) <$> isolated_scan z (S k) rest).
    rewrite (retained_cons x).
    destruct (decide (HostIP x ≠ "127.0.0.1")) as [Hx|Hx].
    + intros (r' & Hr' & ->)%fmap_Some.
      rewrite retained_cons, decide_True by done. f_equal. by eapply IH2.
    + intros (r' & Hr' & ->)%fmap_Some.
      rewrite !(retained_cons y). apply IH1 in Hr'. by rewrite Hr'.
Qed.

Lemma retained_no_loopback binds b :
  b ∈ retained binds → HostIP b ≠ "127.0.0.1".
Proof. by intros [? _]%list_elem_of_filter. Qed.
Lemma adjacent_loopbacks_cons_other y rest :
  HostIP y ≠ "127.0.0.1" →
  adjacent_loopbacks (y :: rest) = adjacent_loopbacks rest.
Proof.
  intros Hy. destruct rest as [|y' rest]; [done|].
  change (adjacent_loopbacks (y :: y' :: rest)) with
    (bool_decide (HostIP y = "127.0.0.1") && bool_decide (HostIP y' = "127.0.0.1")
     || adjacent_loopbacks (y' :: rest)).
  by rewrite bool_decide_eq_false_2.
Qed.

Lemma isolated_scan_clean rest : ∀ z k,
  (rest ≠ [] → last rest = Some z) →
  isolated_scan z k rest = Some (retained rest)
  ↔ adjacent_loopbacks rest = false
    ∧ (HostIP z ≠ "127.0.0.1" ∨ (k = 0 ∧ loopbacks rest ≤ 1)).
Proof.
  induction rest as [|x|x y rest IH1 IH2] using list_ind2; intros z k Hz.
  - simpl. case_decide as H; split.
    + intros _. split; [done|]. destruct H; [right|left]; [|done].
      split; [done|]. unfold loopbacks. simpl. lia.
    + done.
    + done.
    + intros [_ [?|[? _]]]; destruct H; auto.
  - specialize (Hz ltac:(done)). simpl in Hz. injection Hz as <-.
    simpl. rewrite retained_cons, loopbacks_cons.
    destruct (decide (HostIP x ≠ "127.0.0.1")) as [Hx|Hx].
    + rewrite decide_True by (by right). simpl. split; [|done].
      intros _. split; [done|by left].
    + apply dec_stable in Hx.
      rewrite (decide_True (P := HostIP x = "127.0.0.1")) by done.
      case_decide; split.
      * intros _. split; [done|right]. unfold loopbacks. simpl. split; [done|lia].
      * done.
      * done.
      * intros [_ [?|[? _]]]; done.
  - specialize (Hz ltac:(done)). rewrite last_cons_cons in Hz.
    change (isolated_scan z k (x :: y :: rest)) with
      (if decide (HostIP x ≠ "127.0.0.1")
       then (x ::.) <$> isolated_scan z k (y :: rest)
       else (y ::.) <$> isolated_scan z (S k) rest).
    change (adjacent_loopbacks (x :: y :: rest)) with
      (bool_decide (HostIP x = "127.0.0.1") && bool_decide (HostIP y = "127.0.0.1")
       || adjacent_loopbacks (y :: rest)).
    rewrite (retained_cons x), (loopbacks_cons x).
    destruct (decide (HostIP x ≠ "127.0.0.1")) as [Hx|Hx].
    + rewrite (decide_False (P := HostIP x = "127.0.0.1")) by done.
      rewrite (bool_decide_eq_false_2 (HostIP x = "127.0.0.1")) by done.
      rewrite andb_false_l, orb_false_l, Nat.add_0_l, <-(IH2 z k) by done.
      split.
      * by intros (r & -> & [= ->])%fmap_Some.
      * by intros ->.
    + apply dec_stable in Hx.
      rewrite (decide_True (P := HostIP x = "127.0.0.1")) by done.
      rewrite (bool_decide_eq_true_2 (HostIP x = "127.0.0.1")) by done.
      destruct (decide (HostIP y = "127.0.0.1")) as [Hy|Hy].
      * rewrite (bool_decide_eq_true_2 (HostIP y = "127.0.0.1")) by done.
        simpl. split; [|by intros [? _]].
        intros (r & _ & Hr)%fmap_Some. exfalso.
        apply (retained_no_loopback (y :: rest) y); [|done].
        rewrite Hr. by left.
      * rewrite (bool_decide_eq_false_2 (HostIP y = "127.0.0.1")) by done.
        rewrite andb_false_r, orb_false_l, adjacent_loopbacks_cons_other by done.
        rewrite retained_cons, decide_True by done.
        assert (rest ≠ [] → last rest = Some z) as Hz'.
        { intros Hne. destruct rest; [done|]. by rewrite last_cons_cons in Hz. }
        assert (HostIP z = "127.0.0.1" → 2 ≤ 1 + loopbacks (y :: rest)) as Hcount.
        { intros Hlo. pose proof (loopbacks_last _ _ Hz Hlo). lia. }
        split.
        -- intros (r & Hr & [= <-])%fmap_Some.
           apply (IH1 z (S k) Hz') in Hr as [Hadj [?|[? _]]]; [|lia].
           split; [done|by left].
        -- intros [Hadj Hcase].
           assert (HostIP z ≠ "127.0.0.1") as Hzlo.
           { destruct Hcase as [?|[_ ?]]; [done|]. intros Hlo.
             specialize (Hcount Hlo). lia. }
           destruct (IH1 z (S k) Hz') as [_ ->]; [done|].
           split; [done|by left].
Qed.
Lemma isolated_scan_sublist rest : ∀ z k r,
  isolated_scan z k rest = Some r → r `sublist_of` rest.
Proof.
  induction rest as [|x|x y rest IH1 IH2] using list_ind2; intros z k r.
  - simpl. case_decide; [|done]. by intros [= <-].
  - simpl. destruct (decide (HostIP x ≠ "127.0.0.1")).
    + case_decide; [|done]. simpl. by intros [= <-].
    + case_decide; [|done]. intros [= <-]. apply sublist_nil_l.
  - change (isolated_scan z k (x :: y :: rest)) with
      (if decide (HostIP x ≠ "127.0.0.1")
       then (x ::.) <$> isolated_scan z k (y :: rest)
       else (y ::.) <$> isolated_scan z (S k) rest).
    destruct (decide (HostIP x ≠ "127.0.0.1")).
    + intros (r' & Hr' & ->)%fmap_Some. apply sublist_skip. by eapply IH2.
    + intros (r' & Hr' & ->)%fmap_Some. apply sublist_cons, sublist_skip.
      by eapply IH1.
Qed.

(** *** The pass over a whole list *)

Lemma isolated_pass_last binds :
  binds ≠ [] →
  last binds = Some (default (mkPortBinding "" "") (last binds)).
Proof. intros Hne. destruct (last binds) eqn:Hl; [done|]. by apply last_None in Hl. Qed.

Lemma ends_in_loopback_true binds :
  ends_in_loopback binds = true
  ↔ HostIP (default (mkPortBinding "" "") (last binds)) = "127.0.0.1".
Proof.
  unfold ends_in_loopback. destruct (last binds) as [z|]; simpl.
  - apply bool_decide_eq_true.
  - split; discriminate.
Qed.

Lemma isolated_pass_None binds :
  isolated_pass binds = None
  ↔ ends_in_loopback binds = true ∧ 2 ≤ loopbacks binds.
Proof.
  unfold isolated_pass.
  rewrite isolated_scan_None by apply isolated_pass_last.
  rewrite ends_in_loopback_true. split; intros [? ?]; split; try done.
  - destruct H0; [lia|done].
  - by right.
Qed.

Lemma isolated_pass_clean binds :
  isolated_pass binds = Some (retained binds)
  ↔ adjacent_loopbacks binds = false
    ∧ (ends_in_loopback binds = false ∨ loopbacks binds ≤ 1).
Proof.
  unfold isolated_pass.
  rewrite isolated_scan_clean by apply isolated_pass_last.
  rewrite <-(not_true_iff_false (ends_in_loopback binds)), ends_in_loopback_true.
  split; intros [? Hcase]; (split; [done|]); destruct Hcase as [?|?];
    try (by left); right; tauto.
Qed.

(** *** The pass over a table *)

Lemma for_each_store_fail iface (g : list PortBinding → option (list PortBinding))
    (l : list (string * list PortBinding)) (acc : PortMap) w :
  (∀ e, e ∈ l → rewrite_binds iface e.2 w = lift (g e.2) w) →
  (∃ e, e ∈ l ∧ g e.2 = None) →
  for_each (λ m e, binds' ← rewrite_binds iface e.2; mret (<[e.1 := binds']> m))
    l acc w = None.
Proof.
  revert acc. induction l as [|e l IH]; intros acc Hl (e' & He' & Hfail).
  { by apply elem_of_nil in He'. }
  simpl. unfold mbind, GoM_bind at 1. unfold mbind, GoM_bind at 1.
  rewrite Hl by (by left). unfold lift.
  destruct (g e.2) as [r|] eqn:Hr; simpl; [|done].
  apply IH.
  - intros e'' He''. apply Hl. by right.
  - apply elem_of_cons in He' as [->|He']; [congruence|]. by exists e'.
Qed.

Lemma rewriteForRuntime_isolated iface (out : PortMap) w :
  ISPN (conf w) = true →
  rewriteForRuntime iface out w = lift (isolated_table out) (advance w).
Proof.
  intros Hispn. unfold isolated_table. case_decide as Hall.
  - rewrite (rewriteForRuntime_fmap _ (λ binds, default [] (isolated_pass binds)));
      [done|].
    intros p binds Hp. rewrite rewrite_binds_isolated by done.
    destruct (Hall p binds Hp) as [r Hr]. by rewrite Hr.
  - apply map_not_Forall in Hall as (p & binds & Hp & Hfail); [|apply _].
    unfold rewriteForRuntime, range_map, mbind, GoM_bind at 1.
    apply (for_each_store_fail _ isolated_pass).
    + intros e _. by apply rewrite_binds_isolated.
    + exists (p, binds). split.
      * rewrite (pick_Permutation _ (map_to_list out)).
        by apply elem_of_map_to_list.
      * simpl. by destruct (isolated_pass binds); [destruct Hfail|].
Qed.

Lemma isolated_table_Some (out t : PortMap) :
  isolated_table out = Some t
  ↔ ∀ p, t !! p = out !! p ≫= isolated_pass
       ∧ (is_Some (out !! p) → is_Some (t !! p)).
Proof.
  unfold isolated_table. case_decide as Hall; split.
  - intros [= <-] p. rewrite lookup_fmap.
    destruct (out !! p) as [binds|] eqn:Hp; simpl; [|by split; [|intros []]].
    destruct (Hall p binds Hp) as [r Hr]. rewrite Hr. by split.
  - intros Ht. f_equal. apply map_eq. intros p. rewrite lookup_fmap.
    destruct (Ht p) as [-> _].
    destruct (out !! p) as [binds|] eqn:Hp; simpl; [|done].
    destruct (Hall p binds Hp) as [r Hr]. by rewrite Hr.
  - done.
  - intros Ht. destruct Hall. intros p binds Hp.
    destruct (Ht p) as [Heq Hsome]. rewrite Hp in Heq, Hsome. simpl in Heq.
    rewrite <-Heq. apply Hsome. by eexists.
Qed.
End isolated.

(** ** Further facts about the table [Bindings] builds *)

Section table_facts.
Implicit Types (w : World) (t : PortMap) (p : Z).

Lemma elem_of_ports_of_inv (entries : list (string * list Z)) p :
  p ∈ ports_of entries → ∃ ip ports, (ip, ports) ∈ entries ∧ p ∈ ports.
Proof.
  unfold ports_of. induction entries as [|[ip ports] entries IH].
  { by intros ?%elem_of_nil. }
  rewrite fmap_cons, concat_cons. intros [Hp|Hp]%elem_of_app.
  - exists ip, ports. split; [by left|done].
  - destruct (IH Hp) as (ip' & ports' & ? & ?). exists ip', ports'.
    split; [by right|done].
Qed.

Lemma Bindings_in_snoc (entries : list (string * list Z)) e :
  Bindings_in (entries ++ [e]) = foldl Bindings_port (Bindings_in entries) e.2.
Proof. unfold Bindings_in. by rewrite foldl_app. Qed.

(** A valid port that is listed has its keys in the table. *)
Lemma bindings_of_listed a ip ports p :
  (1 ≤ p ≤ 65535)%Z → Mappings_of a !! ip = Some ports → p ∈ ports →
  is_Some (bindings_of a !! tcpPort p) ∧ is_Some (bindings_of a !! udpPort p).
Proof.
  intros Hp Hip Hin.
  assert (1 ≤ occurrences p (ports_of (map_to_list (Mappings_of a)))) as Hn.
  { apply occurrences_pos, (elem_of_ports_of _ ip ports); [|done].
    by apply elem_of_map_to_list. }
  rewrite !bindings_of_lookup, emitted_udp_tcp, emitted_tcp by done.
  destruct (occurrences _ _); [lia|]. simpl. by split; eexists.
Qed.

(** Every entry of the table comes from a valid listed port. *)
Lemma bindings_of_origin a k binds :
  bindings_of a !! k = Some binds →
  ∃ p ip ports,
    (1 ≤ p ≤ 65535)%Z ∧ Mappings_of a !! ip = Some ports ∧ p ∈ ports
    ∧ (k = tcpPort p ∨ k = udpPort p)
    ∧ binds = replicate (occurrences p (ports_of (map_to_list (Mappings_of a))))
                (ipv6Binding p).
Proof.
  rewrite bindings_of_lookup. intros [-> Hne]%grow_None_Some.
  destruct (ports_of _ ≫= emitted k) as [|b l] eqn:Hl; [done|].
  assert (b ∈ ports_of (map_to_list (Mappings_of a)) ≫= emitted k) as Hb
    by (rewrite Hl; by left).
  apply elem_of_emitted in Hb as (p & Hin & Hp & _ & Hk).
  apply elem_of_ports_of_inv in Hin as (ip & ports & Hip & Hin).
  apply elem_of_map_to_list in Hip.
  exists p, ip, ports. repeat split; try done; try lia.
  - destruct Hk as [<-|<-]; auto.
  - rewrite <-Hl. destruct Hk as [<-|<-].
    + by rewrite emitted_tcp.
    + by rewrite emitted_udp_tcp, emitted_tcp.
Qed.
End table_facts.

(** ** The rewrite stage under the isolated-network mode *)

(** X1.  Under the isolated-network mode the rewrite stage, with its
    deletions inside the array it is walking, returns for every table what
    the array-free pass [isolated_table] returns, and panics exactly when
    that pass fails. *)
Theorem rewrite_isolated_is_pass (w : World) (iface : string) (out : PortMap) :
  ISPN (conf w) = true →
  result (rewriteForRuntime iface out) w = isolated_table out.
Proof.
  intros Hispn. unfold result. rewrite rewriteForRuntime_isolated by done.
  unfold lift. by destruct (isolated_table out).
Qed.

Lemma rewrite_isolated_is_pass_witness :
  ISPN (conf (world0 None true)) = true
  ∧ result (rewriteForRuntime "172.18.0.1"
              {[ "80/tcp" := [lo "80"; lo "81"; v4 "80"; lo "82"; v4 "83"];
                 "80/udp" := [v4 "80"; lo "80"] ]}) (world0 None true)
    = isolated_table
        {[ "80/tcp" := [lo "80"; lo "81"; v4 "80"; lo "82"; v4 "83"];
           "80/udp" := [v4 "80"; lo "80"] ]}.
Proof.
  split; [reflexivity|].
  apply (rewrite_isolated_is_pass (world0 None true)). reflexivity.
Defined.

(** X2.  Under the isolated-network mode the rewrite stage panics if and
    only if some port's list ends in a loopback entry and holds at least two
    loopback entries. *)
Theorem rewrite_isolated_panics_iff (w : World) (iface : string) (out : PortMap) :
  ISPN (conf w) = true →
  result (rewriteForRuntime iface out) w = None
  ↔ ∃ p binds, out !! p = Some binds
       ∧ ends_in_loopback binds = true ∧ 2 ≤ loopbacks binds.
Proof.
  intros Hispn. unfold result. rewrite rewriteForRuntime_isolated by done.
  unfold lift, isolated_table. case_decide as Hall; simpl; split.
  - done.
  - intros (p & binds & Hp & Hfail). destruct (Hall p binds Hp) as [r Hr].
    apply isolated_pass_None in Hfail. congruence.
  - intros _. apply map_not_Forall in Hall as (p & binds & Hp & Hfail); [|apply _].
    exists p, binds. split; [done|]. apply isolated_pass_None.
    by destruct (isolated_pass binds); [destruct Hfail|].
  - done.
Qed.

Lemma rewrite_isolated_panics_iff_witness :
  ISPN (conf (world0 None true)) = true
  ∧ (result (rewriteForRuntime "172.18.0.1"
               {[ "80/tcp" := [lo "80"; v4 "80"; lo "81"] ]}) (world0 None true)
     = None
     ↔ ∃ p binds,
         ({[ "80/tcp" := [lo "80"; v4 "80"; lo "81"] ]} : PortMap) !! p = Some binds
         ∧ ends_in_loopback binds = true ∧ 2 ≤ loopbacks binds).
Proof.
  split; [reflexivity|].
  apply (rewrite_isolated_panics_iff (world0 None true)). reflexivity.
Defined.

(** X3.  Whenever the rewrite stage returns under the isolated-network
    mode, each port's new list is a subsequence of its old list with exactly
    the same entries that are not loopback entries, in the same order: no
    such entry is dropped, repeated or moved. *)
Theorem rewrite_isolated_keeps_others (w : World) (iface : string)
    (out t : PortMap) (p : string) (binds : list PortBinding) :
  ISPN (conf w) = true →
  result (rewriteForRuntime iface out) w = Some t →
  out !! p = Some binds →
  ∃ binds', t !! p = Some binds'
    ∧ retained binds' = retained binds ∧ binds' `sublist_of` binds.
Proof.
  intros Hispn Ht Hp. unfold result in Ht.
  rewrite rewriteForRuntime_isolated in Ht by done. unfold lift in Ht.
  destruct (isolated_table out) as [t'|] eqn:Htab; [|done].
  simpl in Ht. injection Ht as ->.
  pose proof (proj1 (isolated_table_Some _ _) Htab) as Hlook. destruct (Hlook p) as [Heq _].
  rewrite Hp in Heq. simpl in Heq.
  destruct (isolated_pass binds) as [r|] eqn:Hr.
  - exists r. split; [done|]. unfold isolated_pass in Hr. split.
    + by eapply isolated_scan_retained.
    + by eapply isolated_scan_sublist.
  - destruct (Hlook p) as [_ Hsome]. rewrite Heq in Hsome.
    destruct Hsome as [? ?]; [by rewrite Hp; eexists|done].
Qed.

Lemma rewrite_isolated_keeps_others_witness :
  ∃ binds',
    ({[ "80/tcp" := [lo "81"; v4 "80"; lo "83"; v4 "84"] ]} : PortMap)
      !! "80/tcp" = Some binds'
    ∧ retained binds' = retained [lo "80"; lo "81"; v4 "80"; lo "82"; lo "83"; v4 "84"]
    ∧ binds' `sublist_of` [lo "80"; lo "81"; v4 "80"; lo "82"; lo "83"; v4 "84"].
Proof.
  apply (rewrite_isolated_keeps_others (world0 None true) "172.18.0.1"
           {[ "80/tcp" := [lo "80"; lo "81"; v4 "80"; lo "82"; lo "83"; v4 "84"] ]}).
  - reflexivity.
  - by vm_compute.
  - by vm_compute.
Defined.

(** X4.  Under the isolated-network mode the rewrite stage returns the
    table with exactly the loopback entries removed if and only if, in every
    list, no loopback entry directly follows another one and the last entry
    is not a loopback entry unless it is the only one. *)
Theorem rewrite_isolated_clean_iff (w : World) (iface : string) (out : PortMap) :
  ISPN (conf w) = true →
  result (rewriteForRuntime iface out) w = Some (retained <$> out)
  ↔ ∀ p binds, out !! p = Some binds →
      adjacent_loopbacks binds = false
      ∧ (ends_in_loopback binds = false ∨ loopbacks binds ≤ 1).
Proof.
  intros Hispn. unfold result. rewrite rewriteForRuntime_isolated by done.
  unfold lift. split.
  - intros Ht p binds Hp.
    destruct (isolated_table out) as [t|] eqn:Htab; [|done].
    simpl in Ht. injection Ht as ->.
    pose proof (proj1 (isolated_table_Some _ _) Htab) as Hlook. destruct (Hlook p) as [Heq _].
    rewrite lookup_fmap, Hp in Heq. simpl in Heq.
    by apply isolated_pass_clean.
  - intros Hclean.
    assert (isolated_table out = Some (retained <$> out)) as ->; [|done].
    apply (proj2 (isolated_table_Some _ _)). intros p. rewrite lookup_fmap.
    destruct (out !! p) as [binds|] eqn:Hp; simpl.
    + split; [|by eexists]. symmetry. by apply isolated_pass_clean, (Hclean p).
    + by split; [|intros []].
Qed.

Lemma rewrite_isolated_clean_iff_witness :
  ISPN (conf (world0 None true)) = true
  ∧ (result (rewriteForRuntime "172.18.0.1"
               {[ "80/tcp" := [lo "80"; v4 "80"; lo "81"; v4 "82"] ]})
       (world0 None true)
     = Some (retained <$> {[ "80/tcp" := [lo "80"; v4 "80"; lo "81"; v4 "82"] ]})
     ↔ ∀ p binds,
         ({[ "80/tcp" := [lo "80"; v4 "80"; lo "81"; v4 "82"] ]} : PortMap) !! p
         = Some binds →
         adjacent_loopbacks binds = false
         ∧ (ends_in_loopback binds = false ∨ loopbacks binds ≤ 1)).
Proof.
  split; [reflexivity|].
  apply (rewrite_isolated_clean_iff (world0 None true)). reflexivity.
Defined.

(** ** The rewrite stage under either mode *)

(** X5.  The rewrite stage never removes a key: whenever it returns, the
    table has the keys it had.  Under the isolated-network mode a port whose
    only binding is a loopback entry is left in the table with an empty
    list. *)
Theorem rewrite_keeps_keys (w : World) (iface : string) (out t : PortMap) :
  result (rewriteForRuntime iface out) w = Some t →
  dom t = dom out
  ∧ (ISPN (conf w) = true →
     ∀ p b, out !! p = Some [b] → HostIP b = "127.0.0.1" → t !! p = Some []).
Proof.
  intros Ht. unfold result in Ht. destruct (ISPN (conf w)) eqn:Hispn.
  - rewrite rewriteForRuntime_isolated in Ht by done. unfold lift in Ht.
    destruct (isolated_table out) as [t'|] eqn:Htab; [|done].
    simpl in Ht. injection Ht as ->. split.
    + unfold isolated_table in Htab. case_decide; [|done].
      injection Htab as <-. apply dom_fmap_L.
    + intros _ p b Hp Hb. pose proof (proj1 (isolated_table_Some _ _) Htab) as Hlook.
      destruct (Hlook p) as [-> _]. rewrite Hp. simpl.
      unfold isolated_pass. simpl. by rewrite decide_False by (by intros ?).
  - rewrite (rewriteForRuntime_fmap iface (fmap (replace_loopback iface))) in Ht.
    + simpl in Ht. injection Ht as <-. split; [apply dom_fmap_L|done].
    + intros p binds _. by apply rewrite_binds_replace.
Qed.

Lemma rewrite_keeps_keys_witness :
  dom ({[ "80/tcp" := []; "80/udp" := [v4 "80"] ]} : PortMap)
  = dom ({[ "80/tcp" := [lo "80"]; "80/udp" := [v4 "80"] ]} : PortMap)
  ∧ (ISPN (conf (world0 None true)) = true →
     ∀ p b, ({[ "80/tcp" := [lo "80"]; "80/udp" := [v4 "80"] ]} : PortMap) !! p
            = Some [b] →
            HostIP b = "127.0.0.1" →
            ({[ "80/tcp" := []; "80/udp" := [v4 "80"] ]} : PortMap) !! p = Some []).
Proof.
  apply (rewrite_keeps_keys (world0 None true) "172.18.0.1").
  by vm_compute.
Defined.

(** ** The rewrite stage with the isolated-network mode off *)

(** X6.  With the isolated-network mode off and an interface address other
    than the loopback address, the table the rewrite stage returns holds no
    loopback entry. *)
Theorem rewrite_bridge_leaves_no_loopback (w : World) (iface : string)
    (out : PortMap) :
  ISPN (conf w) = false → iface ≠ "127.0.0.1" →
  ∃ t, result (rewriteForRuntime iface out) w = Some t
       ∧ ∀ p binds b, t !! p = Some binds → b ∈ binds → HostIP b ≠ "127.0.0.1".
Proof.
  intros Hispn Hiface. exists (fmap (M := list) (replace_loopback iface) <$> out).
  unfold result.
  rewrite (rewriteForRuntime_fmap iface (fmap (replace_loopback iface))).
  - split; [done|]. intros p binds b Hp Hb.
    rewrite lookup_fmap in Hp. apply fmap_Some in Hp as (binds0 & _ & ->).
    apply list_elem_of_fmap in Hb as (b0 & -> & _).
    unfold replace_loopback. by case_decide.
  - intros p binds _. by apply rewrite_binds_replace.
Qed.

Lemma rewrite_bridge_leaves_no_loopback_witness :
  ∃ t, result (rewriteForRuntime "172.18.0.1"
                 {[ "80/tcp" := [lo "80"; lo "81"; v4 "80"; lo "82"] ]})
         (world0 None false) = Some t
       ∧ ∀ p binds b, t !! p = Some binds → b ∈ binds → HostIP b ≠ "127.0.0.1".
Proof.
  apply (rewrite_bridge_leaves_no_loopback (world0 None false)).
  - reflexivity.
  - discriminate.
Defined.

(** X7.  With the isolated-network mode off, running the rewrite stage on
    its own result changes nothing. *)
Theorem rewrite_bridge_idempotent (w : World) (iface : string) (out : PortMap) :
  ISPN (conf w) = false →
  result (t ← rewriteForRuntime iface out; rewriteForRuntime iface t) w
  = result (rewriteForRuntime iface out) w.
Proof.
  intros Hispn. unfold result, mbind, GoM_bind at 1.
  rewrite (rewriteForRuntime_fmap iface (fmap (replace_loopback iface)) out w)
    by (intros p binds _; by apply rewrite_binds_replace).
  rewrite (rewriteForRuntime_fmap iface (fmap (replace_loopback iface)))
    by (intros p binds _; by apply rewrite_binds_replace).
  simpl. f_equal. rewrite <-map_fmap_compose. apply map_fmap_ext.
  intros p binds _. simpl. rewrite <-list_fmap_compose.
  apply list_fmap_ext. intros i b _. simpl.
  unfold replace_loopback. repeat case_decide; simpl in *; congruence.
Qed.

Lemma rewrite_bridge_idempotent_witness :
  ISPN (conf (world0 None false)) = false
  ∧ result (t ← rewriteForRuntime "127.0.0.1" {[ "80/tcp" := [lo "80"; v4 "80"] ]};
            rewriteForRuntime "127.0.0.1" t) (world0 None false)
    = result (rewriteForRuntime "127.0.0.1" {[ "80/tcp" := [lo "80"; v4 "80"] ]})
        (world0 None false).
Proof.
  split; [reflexivity|].
  apply (rewrite_bridge_idempotent (world0 None false)). reflexivity.
Defined.

(** ** More about [Bindings] and [Exposed] *)

(** X8.  Every entry of the table [Bindings] returns comes from a port of
    [1..65535] listed in the mappings: its key is that port's tcp or udp
    key, and its list is not empty and holds one "[::]" binding with that
    port's number per occurrence of the port. *)
Theorem Bindings_entry_origin (w : World) (t : PortMap) (k : string)
    (binds : list PortBinding) :
  result Bindings w = Some t → t !! k = Some binds →
  ∃ p ip ports n,
    (1 ≤ p ≤ 65535)%Z
    ∧ Mappings_of (recv w) !! ip = Some ports ∧ p ∈ ports
    ∧ (k = tcpPort p ∨ k = udpPort p)
    ∧ n = occurrences p (ports_of (map_to_list (Mappings_of (recv w))))
    ∧ 1 ≤ n
    ∧ binds = replicate n {| HostIP := "[::]"; HostPort := Itoa p |}.
Proof.
  unfold result. rewrite Bindings_run. simpl. intros [= <-] Hk.
  destruct (bindings_of_origin _ _ _ Hk) as (p & ip & ports & Hp & Hip & Hin & Hkey & ->).
  exists p, ip, ports, (occurrences p (ports_of (map_to_list (Mappings_of (recv w))))).
  repeat split; try done; try lia.
  apply occurrences_pos, (elem_of_ports_of _ ip ports); [|done].
  by apply elem_of_map_to_list.
Qed.

Lemma Bindings_entry_origin_witness :
  ∃ p ip ports n,
    (1 ≤ p ≤ 65535)%Z
    ∧ Mappings_of (recv (world0 (Some {[ "a" := [0; 25565; 25565]%Z ]}) false)) !! ip
      = Some ports
    ∧ p ∈ ports
    ∧ ("25565/udp" = tcpPort p ∨ "25565/udp" = udpPort p)
    ∧ n = occurrences p
            (ports_of (map_to_list
               (Mappings_of (recv (world0 (Some {[ "a" := [0; 25565; 25565]%Z ]}) false)))))
    ∧ 1 ≤ n
    ∧ [ ipv6Binding 25565; ipv6Binding 25565 ]
      = replicate n {| HostIP := "[::]"; HostPort := Itoa p |}.
Proof.
  apply (Bindings_entry_origin
           (world0 (Some {[ "a" := [0; 25565; 25565]%Z ]}) false)
           {[ "25565/tcp" := [ipv6Binding 25565; ipv6Binding 25565];
              "25565/udp" := [ipv6Binding 25565; ipv6Binding 25565] ]}).
  - by vm_compute.
  - by vm_compute.
Defined.

(** X9.  The table depends only on which ports are listed and how often,
    not on the addresses they are listed under: two allocations whose
    mappings hold the same ports with the same multiplicities get the same
    table. *)
Theorem Bindings_ignores_grouping (w1 w2 : World) :
  ports_of (map_to_list (Mappings_of (recv w1)))
  ≡ₚ ports_of (map_to_list (Mappings_of (recv w2))) →
  ∃ t, result Bindings w1 = Some t ∧ result Bindings w2 = Some t.
Proof.
  intros Hperm. exists (bindings_of (recv w1)). unfold result.
  rewrite !Bindings_run. simpl. split; [done|]. f_equal. symmetry.
  by apply Bindings_in_ports.
Qed.

Lemma Bindings_ignores_grouping_witness :
  ∃ t,
    result Bindings (world0 (Some {[ "10.0.0.1" := [80; 443; 80]%Z ]}) false) = Some t
    ∧ result Bindings
        (world0 (Some {[ "10.0.0.2" := [443; 80]%Z; "127.0.0.1" := [80]%Z ]}) true)
      = Some t.
Proof.
  apply Bindings_ignores_grouping. vm_compute.
  repeat first [ reflexivity | apply perm_skip
               | etrans; [apply perm_swap|] ].
Defined.

(** X10.  Adding a mapping under an address not yet present only appends:
    the new table is the old table with the new ports put in one by one.
    Every key of the old table is a key of the new one, and its old list is
    the beginning of its new list: what follows are the bindings the new
    ports emit for that key.  A key the new ports emit nothing for keeps
    its list, and a key that is new holds just what they emit for it. *)
Theorem Bindings_add_mapping (w : World) (m : gmap string (list Z))
    (ip : string) (ports : list Z) :
  m !! ip = None →
  ∃ t t',
    result Bindings (with_mappings (Some m) w) = Some t
    ∧ result Bindings (with_mappings (Some (<[ip := ports]> m)) w) = Some t'
    ∧ t' = foldl Bindings_port t ports
    ∧ (∀ k l, t !! k = Some l → t' !! k = Some (l ++ (ports ≫= emitted k)))
    ∧ (∀ k, t !! k = None →
         t' !! k = match ports ≫= emitted k with [] => None | l' => Some l' end)
    ∧ dom t ⊆ dom t'.
Proof.
  intros Hip.
  exists (Bindings_in (map_to_list m)), (foldl Bindings_port (Bindings_in (map_to_list m)) ports).
  unfold result. rewrite !Bindings_run. simpl.
  assert (∀ k l, Bindings_in (map_to_list m) !! k = Some l →
            foldl Bindings_port (Bindings_in (map_to_list m)) ports !! k
            = Some (l ++ (ports ≫= emitted k))) as Hkept.
  { intros k l Hk. rewrite foldl_Bindings_port_lookup, Hk.
    destruct (ports ≫= emitted k); simpl; [by rewrite app_nil_r|done]. }
  split; [done|]. split; [|split; [done|split; [done|split]]].
  - f_equal. unfold bindings_of, Mappings_of. simpl.
    rewrite (Bindings_in_Permutation _ (map_to_list m ++ [(ip, ports)])).
    + by rewrite Bindings_in_snoc.
    + rewrite map_to_list_insert by done. apply Permutation_cons_append.
  - intros k Hk. rewrite foldl_Bindings_port_lookup, Hk.
    by destruct (ports ≫= emitted k).
  - intros k [l Hk]%elem_of_dom. apply elem_of_dom.
    rewrite (Hkept _ _ Hk). by eexists.
Qed.

Lemma Bindings_add_mapping_witness :
  ∃ t t',
    result Bindings
      (with_mappings (Some {[ "10.0.0.1" := [80]%Z ]}) (world0 None false))
    = Some t
    ∧ result Bindings
        (with_mappings (Some (<["10.0.0.2" := [80; 8080]%Z]> {[ "10.0.0.1" := [80]%Z ]}))
           (world0 None false))
      = Some t'
    ∧ t' = foldl Bindings_port t [80; 8080]%Z
    ∧ (∀ k l, t !! k = Some l →
         t' !! k = Some (l ++ ([80; 8080]%Z ≫= emitted k)))
    ∧ (∀ k, t !! k = None →
         t' !! k = match [80; 8080]%Z ≫= emitted k with
                   | [] => None | l' => Some l' end)
    ∧ dom t ⊆ dom t'.
Proof.
  apply Bindings_add_mapping. by vm_compute.
Defined.

(** X11.  For every integer [p], the key "p/tcp" is in the set [Exposed]
    returns exactly when [p] is in [1..65535] and is listed under some
    address of the mappings; the same holds for "p/udp". *)
Theorem Exposed_membership (w : World) (p : Z) :
  ∃ s, result Exposed w = Some s
       ∧ (tcpPort p ∈ s
          ↔ (1 ≤ p ≤ 65535)%Z
            ∧ ∃ ip ports, Mappings_of (recv w) !! ip = Some ports ∧ p ∈ ports)
       ∧ (udpPort p ∈ s
          ↔ (1 ≤ p ≤ 65535)%Z
            ∧ ∃ ip ports, Mappings_of (recv w) !! ip = Some ports ∧ p ∈ ports).
Proof.
  exists (dom (bindings_of (recv w))). unfold result. rewrite Exposed_run.
  split; [done|].
  assert (∀ k, (k = tcpPort p ∨ k = udpPort p) →
            k ∈ dom (bindings_of (recv w))
            ↔ (1 ≤ p ≤ 65535)%Z
              ∧ ∃ ip ports, Mappings_of (recv w) !! ip = Some ports ∧ p ∈ ports)
    as Hkey.
  { intros k Hk. rewrite elem_of_dom. split.
    - intros [binds Hb].
      destruct (bindings_of_origin _ _ _ Hb)
        as (q & ip & ports & Hq & Hip & Hin & Hkq & _).
      assert (q = p) as ->.
      { destruct Hk as [->| ->], Hkq as [Hkq|Hkq].
        - by apply tcpPort_inj in Hkq.
        - by destruct (tcpPort_ne_udpPort p q).
        - symmetry in Hkq. by destruct (tcpPort_ne_udpPort q p).
        - by apply udpPort_inj in Hkq. }
      split; [done|]. by exists ip, ports.
    - intros (Hp & ip & ports & Hip & Hin).
      destruct (bindings_of_listed _ _ _ _ Hp Hip Hin) as [? ?].
      by destruct Hk as [->| ->]. }
  split; apply Hkey; auto.
Qed.
